(** * A shallow embedding of [search_engine.py]

    The program is a toy search engine based on latent semantic indexing:
    it builds a term/document count matrix from a corpus, normalises its
    columns, truncates a singular value decomposition of it, and ranks the
    documents by the angle between their reduced coordinates and a projected
    query.

    Conventions of the embedding.
    - Every Python [def] becomes a function into [result]: it returns a
      value ([Ok]) or raises ([Raise]).
    - numpy's [float64] arithmetic is an interface, [Scalar]; the code is
      written once over it.  Its IEEE instance is Rocq's primitive binary64
      [float] (what the program runs on); its exact instance is [R].
    - [numpy.arccos], [numpy.linalg.svd] and [numpy.linalg.inv] are library
      routines whose code is not part of the program: the functions that
      call them take them as parameters.
    - A two-dimensional array is its shape and its entries; a
      one-dimensional array is a list. *)

From Stdlib Require Import PrimFloat SpecFloat FloatOps FloatAxioms.
From Stdlib Require Import Reals Lra DecimalString.
From stdpp Require Import gmap strings list sorting.

Local Open Scope Z_scope.
Local Open Scope nat_scope.

(** ** Exceptions and results *)

(** The exceptions the Python code can meet ([ValueError], [KeyError],
    [IndexError] and numpy's [LinAlgError]), followed by the error kinds
    that the specification names.  The source declares none of the latter
    and has no [raise] statement. *)
Inductive exn : Set :=
  | ValueError
  | KeyError
  | IndexError
  | LinAlgError
  | MalformedCorpusError
  | EmptyDocumentError
  | InvalidRankError
  | DegenerateMatrixError
  | SingularModelError
  | EmptyQueryError.

Inductive result (A : Type) : Type :=
  | Ok (a : A)
  | Raise (e : exn).
Arguments Ok {A} a.
Arguments Raise {A} e.

#[global] Instance result_ret : MRet result := λ A a, Ok a.
#[global] Instance result_bind : MBind result := λ A B f m,
  match m with
  | Ok a => f a
  | Raise e => Raise e
  end.

(** A [for] loop whose body may raise. *)
Fixpoint foldM {A B : Type} (f : B → A → result B) (b : B) (l : list A)
  : result B :=
  match l with
  | [] => Ok b
  | x :: l' => b' ← f b x; foldM f b' l'
  end.

(** ** Python lists and strings *)

(** [l.index(x)]: the first position of [x], [ValueError] when absent. *)
Definition list_index (x : string) (l : list string) : result nat :=
  match list_find (λ y, y = x) l with
  | Some (i, _) => Ok i
  | None => Raise ValueError
  end.

(** [l[:n]] for an integer [n]: a negative [n] counts from the end. *)
Definition slice_len (n : Z) (len : nat) : nat :=
  if (0 <=? n)%Z then Nat.min (Z.to_nat n) len
  else len - Z.to_nat (- n).

Definition slice_to {A : Type} (n : Z) (l : list A) : list A :=
  take (slice_len n (length l)) l.

(** Python orders [str] values lexicographically by byte; so does
    [String.leb]. *)
Definition str_le (s t : string) : Prop := String.leb s t = true.
Definition str_lt (s t : string) : Prop := String.ltb s t = true.

#[global] Instance str_le_dec : RelDecision str_le.
Proof. intros s t. unfold str_le. apply _. Defined.

(** [sorted(l)] and [l.sort()] on strings. *)
Definition sorted_strings (l : list string) : list string :=
  merge_sort str_le l.

(** ** numpy's arithmetic *)

Class Scalar (F : Type) : Type := {
  s_zero : F;
  s_one : F;
  s_add : F → F → F;
  s_mul : F → F → F;
  s_div : F → F → F;
  s_sqrt : F → F;
  s_ltb : F → F → bool;
  s_of_int : Z → F
}.

Section Arrays.
Context {F : Type} `{Scalar F}.

(** A two-dimensional array: [A.shape = (shape0, shape1)] and
    [A[i, j] = elt i j]. *)
Record matrix : Type := Matrix {
  shape0 : nat;
  shape1 : nat;
  elt : nat → nat → F
}.

Definition to_rows (A : matrix) : list (list F) :=
  map (λ i, map (elt A i) (seq 0 (shape1 A))) (seq 0 (shape0 A)).

(** [zeros(n)] and [zeros((m, n))] *)
Definition zeros (n : nat) : list F := replicate n s_zero.
Definition zeros2 (m n : nat) : matrix := Matrix m n (λ _ _, s_zero).

(** [eye(m, n)] *)
Definition eye (m n : nat) : matrix :=
  Matrix m n (λ i j, if i =? j then s_one else s_zero).

(** [A[r, c] = v] for an index inside the shape *)
Definition mset (A : matrix) (r c : nat) (v : F) : matrix :=
  Matrix (shape0 A) (shape1 A)
    (λ i j, if (i =? r) && (j =? c) then v else elt A i j).

(** [A[:, c]] and [A[r, :]] *)
Definition column (A : matrix) (c : nat) : list F :=
  map (λ i, elt A i c) (seq 0 (shape0 A)).
Definition row (A : matrix) (r : nat) : list F :=
  map (λ j, elt A r j) (seq 0 (shape1 A)).

(** [A.T] *)
Definition transpose (A : matrix) : matrix :=
  Matrix (shape1 A) (shape0 A) (λ i j, elt A j i).

(** [A[:, :k]], [A[:k, :]] and [A[:k, :k]] *)
Definition cols_to (k : Z) (A : matrix) : matrix :=
  Matrix (shape0 A) (slice_len k (shape1 A)) (elt A).
Definition rows_to (k : Z) (A : matrix) : matrix :=
  Matrix (slice_len k (shape0 A)) (shape1 A) (elt A).
Definition block_to (k : Z) (A : matrix) : matrix :=
  Matrix (slice_len k (shape0 A)) (slice_len k (shape1 A)) (elt A).

(** The sum of products, accumulated from the left starting at zero. *)
Definition sum_prod (p q : list F) : F :=
  foldl (λ acc xy, s_add acc (s_mul xy.1 xy.2)) s_zero (zip p q).

(** [dot(p, q)] of two vectors: the lengths must agree. *)
Definition dot (p q : list F) : result F :=
  if length p =? length q then Ok (sum_prod p q) else Raise ValueError.

(** [dot(A, v)] of a matrix and a vector. *)
Definition mdot (A : matrix) (v : list F) : result (list F) :=
  if shape1 A =? length v
  then Ok (map (λ i, sum_prod (row A i) v) (seq 0 (shape0 A)))
  else Raise ValueError.

(** [norm(v)]: the Euclidean norm of a vector. *)
Definition norm (v : list F) : F := s_sqrt (sum_prod v v).

(** [v /= c] *)
Definition vdiv (v : list F) (c : F) : list F := map (λ x, s_div x c) v.

End Arrays.
Arguments matrix F : clear implicits.

(** ** The program *)

(** The corpus: the dictionary read from the pickle file, from document
    identifiers to lists of (term, count) pairs. *)
Abbreviation corpus := (gmap string (list (string * Z))).

Section Program.
Context {F : Type} `{Scalar F}.

(** The library routines the program calls. [svd A] returns the full
    decomposition [(U, s, Vt)] with [s] the vector of singular values. *)
Variable arccos : F → F.
Variable svd : matrix F → result (matrix F * list F * matrix F).
Variable inv : matrix F → result (matrix F).

(** [cosDist(p, q)] is [arccos(dot(q, p)/(norm(q)*norm(p)))]:
    [cosDist_arg] is the quotient it hands to [arccos]. *)
Definition cosDist_arg (p q : list F) : result F :=
  d ← dot q p; Ok (s_div d (s_mul (norm q) (norm p))).

Definition cosDist (p q : list F) : result F :=
  x ← cosDist_arg p q; Ok (arccos x).

(** [extractData(data)]: the sorted document identifiers and the sorted
    set of terms. *)
Definition extractData (data : corpus) : result (list string * list string) :=
  let urls := sorted_strings (map fst (map_to_list data)) in
  let tags : gset string :=
    foldl (λ tags tagfreq, tags ∪ list_to_set (map fst tagfreq)) ∅
          (map snd (map_to_list data)) in
  Ok (urls, sorted_strings (elements tags)).

(** [generateCounts(data, urls, tags)] *)
Definition generateCounts (data : corpus) (urls tags : list string)
  : result (matrix F) :=
  let A := zeros2 (length tags) (length urls) in
  '(A, _) ← foldM (λ '(A, column) url,
      tagfreq ← match data !! url with
                | Some l => Ok l
                | None => Raise KeyError
                end;
      A ← foldM (λ A '(tag, count),
              row ← list_index tag tags;
              Ok (mset A row column (s_of_int count))) A tagfreq;
      Ok (A, S column)) (A, 0) urls;
  Ok A.

(** [normalize_columns(arr)]: every column divided by its own norm. *)
Definition normalize_column (arr : matrix F) (col : nat) : matrix F :=
  let n := norm (column arr col) in
  Matrix (shape0 arr) (shape1 arr)
    (λ i j, if j =? col then s_div (elt arr i j) n else elt arr i j).

Definition normalize_columns (arr : matrix F) : result (matrix F) :=
  Ok (foldl normalize_column arr (seq 0 (shape1 arr))).

(** [resize(S, [m, 1]) * eye(m, n)], with [sv] the vector the source calls
    [S].  [resize] repeats it cyclically to fill [m] entries and gives zeros
    when it is empty; when [m = 0] and it is not empty [resize] returns
    [S[:0]], of shape [(0,)], which broadcasts against [eye(0, n)] only for
    [n <= 1]. *)
Definition resize (sv : list F) (m : nat) : list F :=
  match sv with
  | [] => zeros m
  | s0 :: _ => map (λ i, nth (i mod length sv) sv s0) (seq 0 m)
  end.

Definition diag_of (sv : list F) (m n : nat) : result (matrix F) :=
  match sv, m with
  | _ :: _, 0 => if n <=? 1 then Ok (Matrix 0 0 (λ _ _, s_zero))
                 else Raise ValueError
  | _, _ =>
      let col := resize sv m in
      Ok (Matrix m n (λ i j, s_mul (nth i col s_zero) (elt (eye m n) i j)))
  end.

(** [truncatedSVD(A, k)] *)
Definition truncatedSVD (A : matrix F) (k : Z)
  : result (matrix F * matrix F * matrix F) :=
  '(U, sv, Vt) ← svd A;
  let m := shape0 A in
  let n := shape1 A in
  Sm ← diag_of sv m n;
  Ok (cols_to k U, block_to k Sm, rows_to k Vt).

(** The fields of a [SearchEngine] instance. *)
Record SearchEngine : Type := {
  se_urls : list string;
  se_tags : list string;
  se_no_tags : nat;
  se_U : matrix F;
  se_S : matrix F;
  se_Vt : matrix F;
  se_Ut : matrix F;
  se_Si : matrix F;
  se_no_svd_components : Z;
  se_no_results : Z
}.

(** [SearchEngine.__init__]; the corpus is what [loadData] read. *)
Definition SearchEngine_init (data : corpus) (no_svd_components no_results : Z)
  : result SearchEngine :=
  '(urls, tags) ← extractData data;
  A ← generateCounts data urls tags;
  A ← normalize_columns A;
  '(U, Sm, Vt) ← truncatedSVD A no_svd_components;
  Si ← inv Sm;
  Ok {| se_urls := urls; se_tags := tags; se_no_tags := length tags;
        se_U := U; se_S := Sm; se_Vt := Vt; se_Ut := transpose U;
        se_Si := Si; se_no_svd_components := no_svd_components;
        se_no_results := no_results |}.

(** [build_query_vector]: a key word that is not a tag makes [index]
    raise, and the bare [except] swallows it, as it would swallow the
    [IndexError] of an assignment outside [q] (the update of a list does
    nothing there). *)
Definition build_query_vector (self : SearchEngine) (key_words : list string)
  : result (list F) :=
  Ok (foldl (λ q key,
               match list_index key (se_tags self) with
               | Ok i => <[i := s_one]> q
               | Raise _ => q
               end)
            (zeros (se_no_tags self)) key_words).

(** [project] *)
Definition project (self : SearchEngine) (q : list F) : result (list F) :=
  t ← mdot (se_Ut self) q;
  qhat ← mdot (se_Si self) t;
  Ok (vdiv qhat (norm qhat)).

(** [list.sort(key=lambda x: x[1])] on (index, distance) pairs: a stable
    sort that compares keys with [<].  Python defines its result for keys
    that [<] orders totally; there it is this insertion sort's. *)
Fixpoint insert_by_key (x : nat * F) (l : list (nat * F)) : list (nat * F) :=
  match l with
  | [] => [x]
  | y :: l' =>
      if s_ltb x.2 y.2 then x :: y :: l' else y :: insert_by_key x l'
  end.

Definition sort_by_key (l : list (nat * F)) : list (nat * F) :=
  foldl (λ acc x, insert_by_key x acc) [] l.

(** [self.Vt[:, i]] *)
Definition get_column (A : matrix F) (i : nat) : result (list F) :=
  if i <? shape1 A then Ok (column A i) else Raise IndexError.

(** The list [cos_distances] when the loop of [nearest_urls] ends. *)
Definition cos_distances (self : SearchEngine) (qhat : list F)
  : result (list (nat * F)) :=
  foldM (λ cos_distances i,
           p ← get_column (se_Vt self) i;
           d ← cosDist p qhat;
           Ok (sort_by_key (cos_distances ++ [(i, d)])))
        [] (seq 0 (length (se_urls self))).

(** [nearest_urls(qhat, no_results=None)] *)
Definition nearest_urls (self : SearchEngine) (qhat : list F)
    (no_results : option Z) : result (list string) :=
  let no_results :=
    match no_results with
    | None | Some 0%Z => se_no_results self
    | Some n => n
    end in
  ranked ← cos_distances self qhat;
  Ok (map (λ pair, nth pair.1 (se_urls self) EmptyString)
          (slice_to no_results ranked)).

(** [search(key_words)] *)
Definition search (self : SearchEngine) (key_words : list string)
  : result (list string) :=
  q ← build_query_vector self key_words;
  qhat ← project self q;
  nearest_urls self qhat None.

End Program.

(** ** The two instances of the arithmetic *)

(** The float nearest to an integer, as numpy stores a Python [int] in a
    [float64] array.  (An integer beyond the range of floats becomes an
    infinity here, where numpy raises [OverflowError]; no statement below
    depends on such a count.) *)
Definition float_of_int (z : Z) : float :=
  SF2Prim (binary_normalize 53 1024 z 0 false).

(** IEEE binary64: what the program computes with.  Division by zero does
    not raise; [0/0] is [nan]. *)
#[global] Instance float_scalar : Scalar float := {|
  s_zero := 0%float;
  s_one := 1%float;
  s_add := PrimFloat.add;
  s_mul := PrimFloat.mul;
  s_div := PrimFloat.div;
  s_sqrt := PrimFloat.sqrt;
  s_ltb := PrimFloat.ltb;
  s_of_int := float_of_int
|}.

(** Exact real arithmetic: the program as the mathematics of the method
    reads it. *)
Definition Rltb (x y : R) : bool := if Rlt_dec x y then true else false.

#[global] Instance R_scalar : Scalar R := {|
  s_zero := 0%R;
  s_one := 1%R;
  s_add := Rplus;
  s_mul := Rmult;
  s_div := Rdiv;
  s_sqrt := R_sqrt.sqrt;
  s_ltb := Rltb;
  s_of_int := IZR
|}.

(** ** The command line

    The block under [if __name__ == "__main__"].  [getopt.gnu_getopt] and
    Python's [int] are library routines, and [loadData(data_file)] is
    [pickle.load(open(data_file))], the reading and decoding of a file:
    the block is modelled from the pair [options, keywords] that
    [gnu_getopt] returned, and takes [int] and [loadData] as parameters. *)

Definition newline : string := String (Ascii.ascii_of_nat 10) EmptyString.
Definition tab : string := String (Ascii.ascii_of_nat 9) EmptyString.

(** The module constants. *)
Definition INPUT : string := "lsiData.pkl".
Definition NUM_COMPONENTS : Z := 10.
Definition NUM_RESULTS : Z := 5.

(** What [usage()] prints. *)
Definition usage : string :=
  "Usage:" +:+ newline +:+ tab
  +:+ "python search_engine.py -f<input file> -n<number of svd components> -m<number of search results> <search key words>".

(** The variables [input], [numcmp] and [numres] of the main block. *)
Record settings : Type := Settings {
  input : string;
  numcmp : Z;
  numres : Z
}.

(** How the main block ends: it runs to its end, [exit(code)] raises
    [SystemExit], or an exception reaches the top level. *)
Inductive ending : Type :=
  | Completed
  | SystemExit (code : Z)
  | Uncaught (e : exn).

Section CommandLine.
Variable int : string → result Z.
Variable loadData : string → result corpus.
Variable arccos : float → float.
Variable svd : matrix float → result (matrix float * list float * matrix float).
Variable inv : matrix float → result (matrix float).

(** [SearchEngine(data_file, no_svd_components, no_results)] *)
Definition SearchEngine_new (data_file : string)
    (no_svd_components no_results : Z) : result (@SearchEngine float) :=
  data ← loadData data_file;
  SearchEngine_init svd inv data no_svd_components no_results.

(** The body of the [try] in the loop over the options. *)
Definition set_option (st : settings) (option : string * string)
  : result settings :=
  let '(opt, arg) := option in
  if bool_decide (opt ∈ ["-f"; "--input"]%string)
  then Ok (Settings arg (numcmp st) (numres st))
  else if bool_decide (opt ∈ ["-n"; "--numcmp"]%string)
  then n ← int arg; Ok (Settings (input st) n (numres st))
  else if bool_decide (opt ∈ ["-m"; "--numres"]%string)
  then n ← int arg; Ok (Settings (input st) (numcmp st) n)
  else Ok st.

(** The loop over the options: the first exception leaves it. *)
Definition read_options (options : list (string * string)) : result settings :=
  foldM set_option (Settings INPUT NUM_COMPONENTS NUM_RESULTS) options.

(** The main block.  The result is the list of the strings printed, one
    for each [print] statement (which writes its string and a newline),
    and how the block ends.  Any exception in the loop over the options is
    caught by the bare [except], which prints the usage and exits with
    status 2. *)
Definition main (options : list (string * string)) (keywords : list string)
  : list string * ending :=
  match read_options options with
  | Raise _ => ([usage], SystemExit 2)
  | Ok st =>
      let '(out, keywords) :=
        match keywords with
        | [] => (["No search keywords were given.  Using defaults."
                  +:+ newline +:+ newline], ["australia"%string])
        | _ => ([], keywords)
        end in
      let plural := if 1 <? length keywords then "s"%string else ""%string in
      let out := out ++ ["Results for search on keyword" +:+ plural +:+ ": "
                         +:+ String.concat ", " keywords] in
      match (engine ← SearchEngine_new (input st) (numcmp st) (numres st);
             search arccos engine keywords) with
      | Ok results =>
          (out ++ [tab +:+ String.concat (newline +:+ tab) results], Completed)
      | Raise e => (out, Uncaught e)
      end
  end.

End CommandLine.

(** ** Library routines on the inputs of the examples *)

(** [numpy.arccos] on floats: [nan] outside [[-1, 1]], the correctly
    rounded values at [1], [0] and [-1], and in between a truncated
    series, which only serves to run examples. *)
Definition arccos_ref (x : float) : float :=
  let half_pi := 0x1.921fb54442d18p+0%float in
  if PrimFloat.eqb x 1 then 0%float
  else if PrimFloat.eqb x 0 then half_pi
  else if PrimFloat.eqb x (-1) then 0x1.921fb54442d18p+1%float
  else if PrimFloat.leb (PrimFloat.abs x) 1
  then (half_pi - (x + x * x * x / 6 + 3 * x * x * x * x * x / 40))%float
  else nan.

(** A square matrix that is diagonal with a non-negative, non-increasing
    diagonal. *)
Definition is_diag_desc (A : matrix float) : bool :=
  let n := shape0 A in
  (0 <? n) && (n =? shape1 A)
  && forallb (λ i, forallb (λ j, (i =? j) || PrimFloat.eqb (elt A i j) 0)
                           (seq 0 n)) (seq 0 n)
  && forallb (λ i, PrimFloat.leb 0 (elt A i i)
                   && ((n <=? S i)
                       || PrimFloat.leb (elt A (S i) (S i)) (elt A i i)))
             (seq 0 n).

(** A singular value decomposition of such a matrix, identity factors
    around the diagonal: what [numpy.linalg.svd] returns on the identity.
    Other inputs are not covered. *)
Definition svd_diag (A : matrix float)
  : result (matrix float * list float * matrix float) :=
  let n := shape0 A in
  if is_diag_desc A
  then Ok (eye n n, map (λ i, elt A i i) (seq 0 n), eye n n)
  else Raise LinAlgError.

(** [numpy.linalg.inv] on a diagonal matrix: [LinAlgError] when it is not
    square or has a zero on the diagonal, the reciprocal diagonal
    otherwise. *)
Definition inv_diag (A : matrix float) : result (matrix float) :=
  let n := shape0 A in
  if negb (n =? shape1 A) then Raise LinAlgError
  else if existsb (λ i, PrimFloat.eqb (elt A i i) 0) (seq 0 n)
  then Raise LinAlgError
  else Ok (Matrix n n (λ i j, if i =? j then (1 / elt A i i)%float
                              else 0%float)).

(** Python's [int] on a string of decimal digits with an optional minus
    sign, [ValueError] on any other string.  (Python also reads a plus
    sign and blanks around the number: such strings are not covered.) *)
Definition int_decimal (s : string) : result Z :=
  match NilZero.int_of_string s with
  | Some d => Ok (Z.of_int d)
  | None => Raise ValueError
  end.

(** [loadData] on a file system in which every path holds the pickle of
    [data]. *)
Definition load_corpus (data : corpus) (data_file : string) : result corpus :=
  Ok data.

(** ** Example inputs *)

(** Three documents with one term each: the normalised count matrix is the
    identity. *)
Definition corpus3 : corpus :=
  {[ "docA"%string := [("cat"%string, 3%Z)];
     "docB"%string := [("dog"%string, 2%Z)];
     "docC"%string := [("fish"%string, 5%Z)] ]}.

Definition engine3 (k n : Z) : result (@SearchEngine float) :=
  SearchEngine_init svd_diag inv_diag corpus3 k n.

Definition run_search (k n : Z) (key_words : list string)
  : result (list string) :=
  e ← engine3 k n; search arccos_ref e key_words.

(** The projected query of the key word "cat" on [corpus3]. *)
Definition qhat_cat : list float := [1%float; 0%float; 0%float].

(** The distances of the three documents to it: 0 and twice pi/2. *)
Definition ds_cat : list float :=
  [0%float; 0x1.921fb54442d18p+0%float; 0x1.921fb54442d18p+0%float].


(** A corpus with a document that has no terms. *)
Definition corpus_empty_doc : corpus :=
  {[ "docA"%string := [("cat"%string, 1%Z)]; "docB"%string := [] ]}.

(** The engine of [corpus3] with all three components, in exact
    arithmetic. *)
Definition engine3_exact : @SearchEngine R := {|
  se_urls := ["docA"; "docB"; "docC"]%string;
  se_tags := ["cat"; "dog"; "fish"]%string;
  se_no_tags := 3;
  se_U := eye 3 3;
  se_S := eye 3 3;
  se_Vt := eye 3 3;
  se_Ut := transpose (eye 3 3);
  se_Si := eye 3 3;
  se_no_svd_components := 3;
  se_no_results := 5
|}.

(** The projected query of a key word outside the vocabulary, and the
    distances of the three documents to it. *)
Definition qhat_nan : list float := [nan; nan; nan].
Definition ds_nan : list float := [nan; nan; nan].


(** ** Vocabulary of the statements *)

(** A term occurs in the corpus when some document lists it. *)
Definition occurs (data : corpus) (term : string) : Prop :=
  ∃ id tagfreq, data !! id = Some tagfreq ∧ term ∈ tagfreq.*1.

(** The count a document's term list gives a term: the one of the last
    pair that names it (a later assignment overwrites an earlier one). *)
Fixpoint term_count (tagfreq : list (string * Z)) (term : string) : option Z :=
  match tagfreq with
  | [] => None
  | (tag, count) :: rest =>
      match term_count rest term with
      | Some n => Some n
      | None => if decide (tag = term) then Some count else None
      end
  end.

(** The first two steps of [__init__]: the count matrix of a corpus. *)
Definition build_matrix {F : Type} `{Scalar F} (data : corpus)
  : result (matrix F) :=
  '(urls, tags) ← extractData data; generateCounts data urls tags.

(** [A.shape] *)
Definition shape {F : Type} (A : matrix F) : nat * nat := (shape0 A, shape1 A).

Definition shapes3 {F : Type} (r : matrix F * matrix F * matrix F)
  : (nat * nat) * (nat * nat) * (nat * nat) :=
  (shape r.1.1, shape r.1.2, shape r.2).

Section RankerDefs.
Context {F : Type} `{Scalar F}.
Variable arccos : F → F.

(** The distance of document [i]: [cosDist(self.Vt[:, i], qhat)]. *)
Definition distance_of (self : @SearchEngine F) (qhat : list F) (i : nat)
  : result F :=
  p ← get_column (se_Vt self) i; cosDist arccos p qhat.

(** [ds] lists the distances of all documents, in index order. *)
Definition distances (self : @SearchEngine F) (qhat ds : list F) : Prop :=
  Forall2 (λ i d, distance_of self qhat i = Ok d)
          (seq 0 (length (se_urls self))) ds.

(** On the keys [ds], [<] is a strict weak order: asymmetric, and any key
    lies above the smaller or below the larger of two ordered keys.  For
    floats this holds when no key is [nan]. *)
Definition key_order (ds : list F) : Prop :=
  ∀ x y z, x ∈ ds → y ∈ ds → z ∈ ds → s_ltb x y = true →
    s_ltb y x = false ∧ (s_ltb x z = true ∨ s_ltb z y = true).

(** [self.urls[i]] *)
Definition url_at (self : @SearchEngine F) (i : nat) : string :=
  nth i (se_urls self) EmptyString.

(** Pair [a] may stand before pair [b] in the ranking: [b]'s distance is
    not smaller, and when [a]'s is not smaller either (a tie), [a] has the
    smaller index and the smaller document identifier. *)
Definition ranks_before (self : @SearchEngine F) (a b : nat * F) : Prop :=
  s_ltb b.2 a.2 = false
  ∧ (s_ltb a.2 b.2 = false →
     a.1 < b.1 ∧ str_lt (url_at self a.1) (url_at self b.1)).

(** The result count [nearest_urls] uses. *)
Definition effective_count (self : @SearchEngine F) (no_results : option Z)
  : Z :=
  match no_results with
  | None | Some 0%Z => se_no_results self
  | Some n => n
  end.

End RankerDefs.

(** What numpy documents of [svd] and [inv]: the shapes of their results. *)
Definition svd_shapes {F : Type}
    (svd : matrix F → result (matrix F * list F * matrix F)) : Prop :=
  ∀ A U sv Vt, svd A = Ok (U, sv, Vt) →
    shape U = (shape0 A, shape0 A)
    ∧ length sv = Nat.min (shape0 A) (shape1 A)
    ∧ shape Vt = (shape1 A, shape1 A).

Definition inv_shapes {F : Type} (inv : matrix F → result (matrix F)) : Prop :=
  ∀ A Ai, inv A = Ok Ai → shape0 A = shape1 A ∧ shape Ai = shape A.

(** The arrays of an engine conform: [Ut] takes query vectors, [Si] takes
    what [Ut] returns, and [Vt] has a column of that dimension for each
    document.  [__init__] builds such an engine when [svd] and [inv] return
    arrays of the documented shapes. *)
Definition well_shaped {F : Type} (self : @SearchEngine F) : Prop :=
  shape1 (se_Ut self) = se_no_tags self
  ∧ shape1 (se_Si self) = shape0 (se_Ut self)
  ∧ shape0 (se_Vt self) = shape0 (se_Si self)
  ∧ shape1 (se_Vt self) = length (se_urls self).

(** [S_k^{-1} · (U_k^T · q)], the projection before it is normalised. *)
Definition projection {F : Type} `{Scalar F} (self : @SearchEngine F)
    (q : list F) : result (list F) :=
  t ← mdot (se_Ut self) q; mdot (se_Si self) t.

(** A float that is a zero of either sign, one that is not [nan], and an
    array whose entries inside the shape are finite floats. *)
Definition signed_zero (x : float) : Prop := ∃ s, Prim2SF x = S754_zero s.
Definition not_nan (x : float) : Prop := PrimFloat.eqb x x = true.
Definition finite_entries (A : matrix float) : Prop :=
  ∀ i j, i < shape0 A → j < shape1 A → is_finite (elt A i j) = true.

(** The count matrix of a corpus after [normalize_columns]: what
    [__init__] hands to [truncatedSVD]. *)
Definition normalized_matrix {F : Type} `{Scalar F} (data : corpus)
  : result (matrix F) :=
  A ← build_matrix data; normalize_columns A.


(** A float that is a zero or [nan]. *)
Definition zero_or_nan (x : float) : Prop :=
  (∃ s, Prim2SF x = S754_zero s) ∨ Prim2SF x = S754_nan.

(** The last argument given to one of [flags] among the options. *)
Fixpoint last_arg (flags : list string) (options : list (string * string))
  : option string :=
  match options with
  | [] => None
  | (opt, arg) :: rest =>
      match last_arg flags rest with
      | Some a => Some a
      | None => if bool_decide (opt ∈ flags) then Some arg else None
      end
  end.

(** An option whose argument [int] must read. *)
Definition numeric (opt : string) : Prop :=
  opt ∈ ["-n"; "--numcmp"; "-m"; "--numres"]%string.

(** * Properties *)

(** ** IEEE arithmetic

    What the statements about [nan] and about the order of distances need
    of binary64 floats, from the specification of the primitive
    operations. *)

Lemma length_zeros {F : Type} `{Scalar F} (n : nat) :
  length (zeros (F := F) n) = n.
Proof. apply length_replicate. Qed.

Section FloatFacts.

Lemma not_nan_spec (x : float) : not_nan x → Prim2SF x ≠ S754_nan.
Proof.
  unfold not_nan. rewrite FloatAxioms.eqb_spec. intros Heq Hnan.
  by rewrite Hnan in Heq.
Qed.

Lemma is_finite_spec (x : float) :
  is_finite x = true →
  (∃ s, Prim2SF x = S754_zero s) ∨ (∃ s m e, Prim2SF x = S754_finite s m e).
Proof.
  unfold is_finite, is_nan, is_infinity.
  rewrite !FloatAxioms.eqb_spec, FloatAxioms.abs_spec. intros Hf.
  destruct (Prim2SF x) as [s|s| |s m e];
    [by left; exists s| | |by right; exists s, m, e].
  - destruct s; vm_compute in Hf; discriminate.
  - vm_compute in Hf. discriminate.
Qed.

Lemma signed_zero_0 : signed_zero 0.
Proof. by exists false. Qed.

Lemma mul_finite_zero (x z : float) :
  is_finite x = true → signed_zero z → signed_zero (x * z).
Proof.
  intros Hx [sz Hz]. unfold signed_zero. rewrite FloatAxioms.mul_spec, Hz.
  destruct (is_finite_spec x Hx) as [[s ->]|(s&m&e&->)]; by eexists.
Qed.

Lemma mul_self_zero (z : float) : signed_zero z → signed_zero (z * z).
Proof.
  intros [sz Hz]. unfold signed_zero. rewrite FloatAxioms.mul_spec, Hz.
  by eexists.
Qed.

Lemma add_0_zero (z : float) : signed_zero z → (0 + z)%float = 0%float.
Proof.
  intros [sz Hz]. apply Prim2SF_inj. rewrite FloatAxioms.add_spec, Hz.
  by destruct sz.
Qed.

Lemma div_zero_0 (z : float) : signed_zero z → (z / 0)%float = nan.
Proof.
  intros [sz Hz]. apply Prim2SF_inj. by rewrite FloatAxioms.div_spec, Hz.
Qed.

(** A sum of products that are all zeros is the positive zero. *)
Lemma sum_prod_zero (p q : list float) :
  Forall (λ xy : float * float, signed_zero (xy.1 * xy.2)) (zip p q) →
  sum_prod p q = 0%float.
Proof.
  unfold sum_prod. induction 1 as [|[x y] l Hxy _ IH]; [done|].
  simpl. change (PrimFloat.add 0 (PrimFloat.mul x y)) with (0 + x * y)%float.
  by rewrite add_0_zero.
Qed.

(** *** The order of floats *)

Lemma SFltb_asym (x y : spec_float) : SFltb x y = true → SFltb y x = false.
Proof.
  unfold SFltb.
  destruct x as [sx|sx| |sx mx ex], y as [sy|sy| |sy my ey]; simpl;
    try done; try (by destruct sx); try (by destruct sy);
    try (by destruct sx, sy).
  change (Pos.compare_cont Eq mx my) with (Pos.compare mx my).
  change (Pos.compare_cont Eq my mx) with (Pos.compare my mx).
  rewrite (Z.compare_antisym ey ex), (Pos.compare_antisym my mx).
  destruct sx, sy; try done;
    destruct (Z.compare ey ex); simpl; try done;
    destruct (Pos.compare my mx); simpl; done.
Qed.

Ltac cmp_cases :=
  repeat match goal with
    | H : context [Z.compare ?a ?b] |- _ =>
        destruct (Z.compare_spec a b); simpl in H; try discriminate H
    | H : context [Pos.compare ?a ?b] |- _ =>
        destruct (Pos.compare_spec a b); simpl in H; try discriminate H
    | |- context [Z.compare ?a ?b] =>
        destruct (Z.compare_spec a b); simpl; try lia
    | |- context [Pos.compare ?a ?b] =>
        destruct (Pos.compare_spec a b); simpl; try lia
    end.

Lemma SFltb_cotrans (x y z : spec_float) :
  z ≠ S754_nan → SFltb x y = true → SFltb x z = true ∨ SFltb z y = true.
Proof.
  unfold SFltb. intros Hz Hxy.
  destruct x as [sx|sx| |sx mx ex], y as [sy|sy| |sy my ey],
           z as [sz|sz| |sz mz ez];
    simpl in *; try done;
    change Pos.compare_cont with (λ c a b, Pos.compare_cont c a b) in *;
    repeat match goal with
      | s : bool |- _ => destruct s
      end; simpl in *; try discriminate; auto;
    change (λ c a b, Pos.compare_cont c a b) with Pos.compare_cont in *;
    repeat match goal with
      | H : context [Pos.compare_cont Eq ?a ?b] |- _ =>
          change (Pos.compare_cont Eq a b) with (Pos.compare a b) in H
      | |- context [Pos.compare_cont Eq ?a ?b] =>
          change (Pos.compare_cont Eq a b) with (Pos.compare a b)
      end;
    cmp_cases; subst; auto; try lia.
Qed.

Lemma float_ltb_asym (x y : float) :
  PrimFloat.ltb x y = true → PrimFloat.ltb y x = false.
Proof. rewrite !FloatAxioms.ltb_spec. apply SFltb_asym. Qed.

Lemma float_ltb_cotrans (x y z : float) :
  not_nan z → PrimFloat.ltb x y = true →
  PrimFloat.ltb x z = true ∨ PrimFloat.ltb z y = true.
Proof.
  intros Hz. rewrite !FloatAxioms.ltb_spec.
  by apply SFltb_cotrans, not_nan_spec.
Qed.

Lemma is_zero_spec (x : float) : is_zero x = true → signed_zero x.
Proof.
  unfold is_zero, signed_zero. rewrite FloatAxioms.eqb_spec.
  destruct (Prim2SF x) as [s|s| |s m e]; [by exists s|..]; intros Hx;
    try destruct s; vm_compute in Hx; discriminate.
Qed.

Lemma float_key_order (ds : list float) : Forall not_nan ds → key_order ds.
Proof.
  rewrite Forall_forall. intros Hds x y z _ _ Hz Hxy. split.
  - by apply float_ltb_asym.
  - apply float_ltb_cotrans; [|done]. by apply Hds.
Qed.

Lemma zip_zeros_r (p : list float) (n : nat) :
  Forall (λ x, is_finite x = true) p →
  Forall (λ xy : float * float, signed_zero (xy.1 * xy.2)) (zip p (zeros n)).
Proof.
  intros Hp. revert n. induction Hp as [|x p Hx _ IH]; intros [|n]; simpl;
    try constructor.
  - simpl. apply mul_finite_zero; [done|apply signed_zero_0].
  - apply IH.
Qed.

Lemma row_finite (A : matrix float) (i : nat) :
  finite_entries A → i < shape0 A →
  Forall (λ x, is_finite x = true) (row A i).
Proof.
  intros HA Hi. unfold row. apply Forall_forall.
  intros x (j&->&Hj%elem_of_seq)%list_elem_of_fmap. apply HA; lia.
Qed.

Lemma map_const (f : nat → float) (c : float) (l : list nat) :
  (∀ i, i ∈ l → f i = c) → map f l = replicate (length l) c.
Proof.
  induction l as [|i l IH]; intros Hf; simpl; [done|].
  rewrite Hf by left. f_equal. apply IH. intros j Hj. apply Hf. by right.
Qed.

(** A matrix of finite floats sends the zero vector to the zero vector. *)
Lemma mdot_zeros (A : matrix float) (n : nat) :
  finite_entries A → n = shape1 A →
  mdot A (zeros n) = Ok (zeros (shape0 A)).
Proof.
  intros HA ->. unfold mdot. rewrite length_zeros, Nat.eqb_refl. f_equal.
  rewrite (map_const _ 0%float).
  - by rewrite length_seq.
  - intros i Hi%elem_of_seq. apply sum_prod_zero, zip_zeros_r.
    apply row_finite; [done|lia].
Qed.

Lemma norm_zeros (n : nat) : norm (zeros (F := float) n) = 0%float.
Proof.
  unfold norm. rewrite sum_prod_zero; [done|].
  apply zip_zeros_r. apply Forall_forall.
  by intros x ->%elem_of_replicate_inv.
Qed.

Lemma map_replicate {A B : Type} (f : A → B) (n : nat) (x : A) :
  map f (replicate n x) = replicate n (f x).
Proof. induction n as [|n IH]; simpl; [done|]. by rewrite IH. Qed.

Lemma bind_Ok {A B : Type} (a : A) (f : A → result B) : (Ok a ≫= f) = f a.
Proof. reflexivity. Qed.

(** The zero vector projects to a vector of [nan]. *)
Lemma project_zeros (self : @SearchEngine float) :
  well_shaped self →
  finite_entries (se_Ut self) → finite_entries (se_Si self) →
  projection self (zeros (se_no_tags self)) = Ok (zeros (shape0 (se_Si self)))
  ∧ project self (zeros (se_no_tags self))
    = Ok (replicate (shape0 (se_Si self)) nan).
Proof.
  intros (HUt&HSi&_) HfU HfS. unfold projection, project.
  rewrite (mdot_zeros (se_Ut self)), !bind_Ok by done.
  rewrite (mdot_zeros (se_Si self)), !bind_Ok by done.
  split; [done|]. rewrite norm_zeros. unfold vdiv, zeros.
  by rewrite map_replicate.
Qed.

End FloatFacts.

(** ** The order on strings *)

Lemma ascii_compare_refl (a : Ascii.ascii) : Ascii.compare a a = Eq.
Proof. unfold Ascii.compare. apply N.compare_refl. Qed.

Lemma ascii_compare_lt_trans (a b c : Ascii.ascii) :
  Ascii.compare a b = Lt → Ascii.compare b c = Lt → Ascii.compare a c = Lt.
Proof.
  unfold Ascii.compare. rewrite !N.compare_lt_iff. apply N.lt_trans.
Qed.

Lemma str_compare_refl (s : string) : String.compare s s = Eq.
Proof. induction s as [|a s IH]; simpl; [done|]. by rewrite ascii_compare_refl. Qed.

Lemma str_compare_lt_trans (s t u : string) :
  String.compare s t = Lt → String.compare t u = Lt → String.compare s u = Lt.
Proof.
  revert t u. induction s as [|a s IH]; intros [|b t] [|c u]; simpl; try done.
  destruct (Ascii.compare a b) eqn:Hab; try done;
    destruct (Ascii.compare b c) eqn:Hbc; try done.
  - apply Ascii.compare_eq_iff in Hab, Hbc. subst.
    rewrite ascii_compare_refl. apply IH.
  - apply Ascii.compare_eq_iff in Hab. subst. by rewrite Hbc.
  - apply Ascii.compare_eq_iff in Hbc. subst. by rewrite Hab.
  - by rewrite (ascii_compare_lt_trans a b c).
Qed.

Lemma str_le_lt_eq (s t : string) : str_le s t ↔ str_lt s t ∨ s = t.
Proof.
  unfold str_le, str_lt, String.leb, String.ltb. split.
  - destruct (String.compare s t) eqn:E; try done; [|by left].
    right. by apply String.compare_eq_iff.
  - intros [Hlt | ->]; [|by rewrite str_compare_refl].
    by destruct (String.compare s t).
Qed.

Lemma str_lt_irrefl (s : string) : ¬ str_lt s s.
Proof. unfold str_lt, String.ltb. by rewrite str_compare_refl. Qed.

Lemma str_lt_trans (s t u : string) : str_lt s t → str_lt t u → str_lt s u.
Proof.
  unfold str_lt, String.ltb. intros Hst Htu.
  destruct (String.compare s t) eqn:E1; try done.
  destruct (String.compare t u) eqn:E2; try done.
  by rewrite (str_compare_lt_trans s t u).
Qed.

#[global] Instance str_le_trans : Transitive str_le.
Proof.
  intros s t u. rewrite !str_le_lt_eq.
  intros [H1 | ->] [H2 | ->]; eauto using str_lt_trans.
Qed.

#[global] Instance str_le_total : Total str_le.
Proof. intros s t. apply String.leb_total. Qed.

Lemma strictly_sorted (l : list string) :
  StronglySorted str_le l → NoDup l → StronglySorted str_lt l.
Proof.
  induction 1 as [|x l Hs IH Hx]; intros Hnd; constructor;
    inversion_clear Hnd as [|?? Hnin Hnd'].
  - by apply IH.
  - rewrite Forall_forall in Hx. apply Forall_forall. intros y Hy.
    destruct (proj1 (str_le_lt_eq x y) (Hx y Hy)) as [?| ->]; [done|].
    by destruct Hnin.
Qed.

(** Sorting a list without repetitions gives a strictly increasing list
    with the same elements. *)
Lemma sorted_strings_spec (l : list string) :
  NoDup l →
  StronglySorted str_lt (sorted_strings l) ∧ sorted_strings l ≡ₚ l.
Proof.
  intros Hnd. unfold sorted_strings.
  pose proof (merge_sort_Permutation str_le l) as Hp. split; [|done].
  apply strictly_sorted.
  - apply (StronglySorted_merge_sort str_le).
  - by rewrite Hp.
Qed.

Lemma strictly_sorted_NoDup (l : list string) :
  StronglySorted str_lt l → NoDup l.
Proof.
  induction 1 as [|x l Hs IH Hx]; constructor; [|done].
  intros Hin. rewrite Forall_forall in Hx.
  by apply (str_lt_irrefl x), Hx.
Qed.

(** ** [extractData] *)

Lemma elem_of_tag_union (term : string) (ls : list (list (string * Z)))
    (acc : gset string) :
  term ∈ foldl (λ tags tagfreq, tags ∪ list_to_set (map fst tagfreq)) acc ls
  ↔ term ∈ acc ∨ ∃ tagfreq, tagfreq ∈ ls ∧ term ∈ tagfreq.*1.
Proof.
  revert acc. induction ls as [|l ls IH]; intros acc; simpl.
  - split; [by left|]. intros [?|(?&Hin&_)]; [done|]. by apply elem_of_nil in Hin.
  - rewrite IH, elem_of_union, elem_of_list_to_set. split.
    + intros [[?|?]|(l'&?&?)]; [by left|right..].
      * exists l. split; [left|done].
      * exists l'. split; [by right|done].
    + intros [?|(l'&Hin&?)]; [by left; left|].
      apply elem_of_cons in Hin as [->|?]; [by left; right|].
      right. by exists l'.
Qed.

Lemma extractData_spec (data : corpus) :
  ∃ urls tags,
    extractData data = Ok (urls, tags)
    ∧ StronglySorted str_lt urls
    ∧ (∀ id, id ∈ urls ↔ is_Some (data !! id))
    ∧ StronglySorted str_lt tags
    ∧ (∀ term, term ∈ tags ↔ occurs data term).
Proof.
  eexists _, _. split; [reflexivity|].
  destruct (sorted_strings_spec (map fst (map_to_list data))) as [Hs Hp].
  { apply NoDup_fst_map_to_list. }
  split; [done|]. split.
  { intros id. rewrite Hp, list_elem_of_fmap. split.
    - intros ([k v]&->&Hin). apply elem_of_map_to_list in Hin. by exists v.
    - intros [v Hv]. exists (id, v). split; [done|].
      by apply elem_of_map_to_list. }
  match goal with |- context [elements ?X] =>
    destruct (sorted_strings_spec (elements X)) as [Hs' Hp'] end.
  { apply NoDup_elements. }
  split; [done|]. intros term.
  rewrite Hp', elem_of_elements, elem_of_tag_union. unfold occurs. split.
  - intros [Hin|(l&Hin&?)]; [set_solver|].
    apply list_elem_of_fmap in Hin as ([k v]&->&Hin).
    apply elem_of_map_to_list in Hin. by exists k, v.
  - intros (id&l&Hl&?). right. exists l. split; [|done].
    apply list_elem_of_fmap. exists (id, l). split; [done|].
    by apply elem_of_map_to_list.
Qed.

Lemma list_index_lookup (x : string) (l : list string) (i : nat) :
  list_index x l = Ok i → l !! i = Some x.
Proof.
  unfold list_index. destruct (list_find _ l) as [[j y]|] eqn:E; [|done].
  intros [= ->]. apply list_find_Some in E as (?&->&_). done.
Qed.

Lemma list_index_elem (x : string) (l : list string) :
  x ∈ l → ∃ i, list_index x l = Ok i.
Proof.
  intros Hin. unfold list_index.
  destruct (list_find _ l) as [[j y]|] eqn:E; [by eexists|].
  apply list_find_None in E. rewrite Forall_forall in E. by destruct (E x).
Qed.

Lemma list_index_NoDup (x : string) (l : list string) (i : nat) :
  NoDup l → l !! i = Some x → list_index x l = Ok i.
Proof.
  intros Hnd Hi. destruct (list_index_elem x l) as [j Hj].
  { by eapply list_elem_of_lookup_2. }
  rewrite Hj. f_equal. apply list_index_lookup in Hj.
  by eapply NoDup_lookup.
Qed.

Lemma list_index_absent (x : string) (l : list string) :
  x ∉ l → list_index x l = Raise ValueError.
Proof.
  intros Hnin. unfold list_index.
  destruct (list_find _ l) as [[j y]|] eqn:E; [|done].
  apply list_find_Some in E as (Hj&->&_). destruct Hnin.
  by eapply list_elem_of_lookup_2.
Qed.



Section GenerateCounts.
Context {F : Type} `{Scalar F}.

(** The loop over one document's term list: column [c] of the result holds
    the document's counts, the other columns are untouched. *)
Lemma count_terms (tags : list string) (c : nat) (tagfreq : list (string * Z))
    (A : matrix F) :
  NoDup tags →
  (∀ term, term ∈ tagfreq.*1 → term ∈ tags) →
  ∃ A',
    foldM (λ A '(tag, count),
             row ← list_index tag tags;
             Ok (mset A row c (s_of_int count))) A tagfreq = Ok A'
    ∧ shape0 A' = shape0 A ∧ shape1 A' = shape1 A
    ∧ (∀ i j, j ≠ c → elt A' i j = elt A i j)
    ∧ (∀ i term, tags !! i = Some term →
         elt A' i c = match term_count tagfreq term with
                      | Some n => s_of_int n
                      | None => elt A i c
                      end).
Proof.
  intros Hnd. revert A.
  induction tagfreq as [|[tag count] rest IH]; intros A Hin; simpl.
  - by exists A.
  - destruct (list_index_elem tag tags) as [r Hr].
    { apply Hin. simpl. left. }
    rewrite Hr. simpl.
    destruct (IH (mset A r c (s_of_int count))) as (A'&->&Hs0&Hs1&Hne&Heq).
    { intros term Ht. apply Hin. simpl. by right. }
    exists A'. split; [done|]. split; [done|]. split; [done|]. split.
    + intros i j Hj. rewrite Hne by done. simpl.
      destruct (Nat.eqb_spec j c); [done|]. by rewrite andb_false_r.
    + intros i term Hi. rewrite (Heq i term Hi).
      destruct (term_count rest term); [done|]. simpl.
      rewrite Nat.eqb_refl, andb_true_r.
      apply list_index_lookup in Hr.
      destruct (decide (tag = term)) as [->|Hne'].
      * rewrite (NoDup_lookup tags i r term Hnd Hi Hr).
        by rewrite Nat.eqb_refl.
      * destruct (Nat.eqb_spec i r) as [->|]; [congruence|done].
Qed.

(** The loop over the documents, started at column [c0]. *)
Lemma count_documents (data : corpus) (tags urls : list string) (c0 : nat)
    (A : matrix F) :
  NoDup tags →
  (∀ id, id ∈ urls → ∃ tagfreq, data !! id = Some tagfreq
                       ∧ ∀ term, term ∈ tagfreq.*1 → term ∈ tags) →
  ∃ A',
    foldM (λ '(A, column) url,
        tagfreq ← match data !! url with
                  | Some l => Ok l
                  | None => Raise KeyError
                  end;
        A ← foldM (λ A '(tag, count),
                row ← list_index tag tags;
                Ok (mset A row column (s_of_int count))) A tagfreq;
        Ok (A, S column)) (A, c0) urls = Ok (A', c0 + length urls)
    ∧ shape0 A' = shape0 A ∧ shape1 A' = shape1 A
    ∧ (∀ i j, j < c0 → elt A' i j = elt A i j)
    ∧ (∀ i c id tagfreq term,
         urls !! c = Some id → data !! id = Some tagfreq →
         tags !! i = Some term →
         elt A' i (c0 + c) = match term_count tagfreq term with
                             | Some n => s_of_int n
                             | None => elt A i (c0 + c)
                             end).
Proof.
  intros Hnd. revert c0 A.
  induction urls as [|url urls IH]; intros c0 A Hin; simpl.
  - exists A. rewrite Nat.add_0_r. by repeat split.
  - destruct (Hin url) as (tagfreq&Hurl&Hterms); [left|].
    rewrite Hurl. simpl.
    destruct (count_terms tags c0 tagfreq A Hnd Hterms)
      as (A1&->&Hs0&Hs1&Hne&Heq). simpl.
    destruct (IH (S c0) A1) as (A'&->&Hs0'&Hs1'&Hlt&Hcol).
    { intros id Hid. apply Hin. by right. }
    exists A'. replace (S c0 + length urls) with (c0 + S (length urls)) by lia.
    split; [done|]. split; [congruence|]. split; [congruence|]. split.
    + intros i j Hj. rewrite Hlt by lia. apply Hne. lia.
    + intros i [|c] id tf term Hc Hid Hi; simpl in Hc.
      * injection Hc as <-. rewrite Hurl in Hid. injection Hid as <-.
        rewrite Nat.add_0_r, Hlt by lia. by apply Heq.
      * replace (c0 + S c) with (S c0 + c) by lia.
        rewrite (Hcol i c id tf term Hc Hid Hi).
        destruct (term_count tf term); [done|]. apply Hne. lia.
Qed.

End GenerateCounts.

Section MatrixBuilder.
Context {F : Type} `{Scalar F}.

Lemma generateCounts_spec (data : corpus) (urls tags : list string) :
  extractData data = Ok (urls, tags) →
  ∃ A : matrix F,
    generateCounts data urls tags = Ok A
    ∧ shape0 A = length tags ∧ shape1 A = length urls
    ∧ ∀ id tagfreq term,
        data !! id = Some tagfreq → term ∈ tags →
        ∃ r c, list_index term tags = Ok r ∧ list_index id urls = Ok c
               ∧ elt A r c = match term_count tagfreq term with
                             | Some n => s_of_int n
                             | None => s_zero
                             end.
Proof.
  intros Hex.
  destruct (extractData_spec data) as (urls'&tags'&Hex'&Hsu&Hu&Hst&Ht).
  rewrite Hex in Hex'. injection Hex' as <- <-.
  pose proof (strictly_sorted_NoDup _ Hsu) as Hndu.
  pose proof (strictly_sorted_NoDup _ Hst) as Hndt.
  destruct (count_documents data tags urls 0 (zeros2 (length tags) (length urls)) Hndt)
    as (A&HA&Hs0&Hs1&_&Hcol).
  { intros id Hid. apply Hu in Hid as [tagfreq Hid]. exists tagfreq.
    split; [done|]. intros term Hterm. apply Ht. by exists id, tagfreq. }
  exists A. unfold generateCounts. rewrite HA. simpl.
  split; [done|]. split; [done|]. split; [done|].
  intros id tagfreq term Hid Hterm.
  apply list_elem_of_lookup_1 in Hterm as [r Hr].
  assert (id ∈ urls) as [c Hc]%list_elem_of_lookup_1 by (apply Hu; eauto).
  exists r, c. split; [by apply list_index_NoDup|].
  split; [by apply list_index_NoDup|].
  specialize (Hcol r c id tagfreq term Hc Hid Hr). simpl in Hcol.
  rewrite Hcol. by destruct (term_count tagfreq term).
Qed.



End MatrixBuilder.


Section Normalizer.
Context {F : Type} `{Scalar F}.

Lemma column_ext (A B : matrix F) (c : nat) :
  shape0 A = shape0 B → (∀ i, elt A i c = elt B i c) → column A c = column B c.
Proof.
  intros Hs He. unfold column. rewrite Hs. apply map_ext. intros i. apply He.
Qed.

(** Normalising the columns listed in [cols], each once. *)
Lemma normalize_some_columns (cols : list nat) (arr : matrix F) :
  NoDup cols →
  let arr' := foldl normalize_column arr cols in
  shape0 arr' = shape0 arr ∧ shape1 arr' = shape1 arr
  ∧ ∀ i j, elt arr' i j =
           if decide (j ∈ cols)
           then s_div (elt arr i j) (norm (column arr j))
           else elt arr i j.
Proof.
  revert arr. induction cols as [|c cols IH]; intros arr Hnd; simpl.
  - repeat split.
  - inversion_clear Hnd as [|?? Hnin Hnd'].
    destruct (IH (normalize_column arr c) Hnd') as (Hs0&Hs1&He).
    split; [by rewrite Hs0|]. split; [by rewrite Hs1|]. intros i j.
    rewrite He. destruct (decide (j ∈ cols)) as [Hin|Hnin'].
    + assert (j ≠ c) as Hne by (intros ->; done).
      rewrite decide_True by (by right).
      rewrite (column_ext (normalize_column arr c) arr j); simpl.
      * by destruct (Nat.eqb_spec j c).
      * done.
      * intros i'. by destruct (Nat.eqb_spec j c).
    + simpl. destruct (Nat.eqb_spec j c) as [->|Hne].
      * rewrite decide_True by left. done.
      * rewrite decide_False; [done|].
        intros [?|?]%elem_of_cons; done.
Qed.

End Normalizer.

(** C3, as the code has it: [normalize_columns] never fails.  It returns
    an array of the same shape in which every entry is its former value
    divided by the Euclidean norm of its former column, without looking at
    that norm: the entries of a column of zeros are divided by 0 and
    become [nan]. *)
Theorem normalize_columns_divides (arr : matrix float) :
  ∃ arr',
    normalize_columns arr = Ok arr'
    ∧ shape arr' = shape arr
    ∧ (∀ i j, j < shape1 arr →
         elt arr' i j = (elt arr i j / norm (column arr j))%float)
    ∧ (∀ j, j < shape1 arr →
         (∀ i, i < shape0 arr → is_zero (elt arr i j) = true) →
         ∀ i, i < shape0 arr → elt arr' i j = nan).
Proof.
  eexists. split; [reflexivity|].
  destruct (normalize_some_columns (seq 0 (shape1 arr)) arr) as (Hs0&Hs1&He).
  { apply NoDup_seq. }
  split; [unfold shape; by rewrite Hs0, Hs1|].
  assert (Hdiv : ∀ i j, j < shape1 arr →
            elt (foldl normalize_column arr (seq 0 (shape1 arr))) i j
            = (elt arr i j / norm (column arr j))%float).
  { intros i j Hj. rewrite He. rewrite decide_True; [done|].
    apply elem_of_seq. lia. }
  split; [done|]. intros j Hj Hz i Hi. rewrite Hdiv by done.
  assert (norm (column arr j) = 0%float) as ->.
  { unfold norm. rewrite sum_prod_zero; [done|]. unfold column.
    rewrite zip_diag, Forall_fmap. apply Forall_forall.
    intros x (i'&->&Hi'%elem_of_seq)%list_elem_of_fmap. simpl.
    apply mul_self_zero, is_zero_spec, Hz. lia. }
  apply div_zero_0, is_zero_spec, Hz. done.
Qed.

(** C3 as stated fails: the count matrix of a corpus with a document that
    has no terms has a zero column; normalisation returns, and the column
    holds [nan]. *)
Lemma zero_column_not_rejected :
  (A ← build_matrix (F := float) corpus_empty_doc; Ok (to_rows A))
  = Ok [[1%float; 0%float]]
  ∧ (A ← build_matrix (F := float) corpus_empty_doc;
     A' ← normalize_columns A; Ok (to_rows A'))
    = Ok [[1%float; nan]].
Proof. split; vm_compute; reflexivity. Qed.

Section Decomposer.
Context {F : Type} `{Scalar F}.
Variable svd : matrix F → result (matrix F * list F * matrix F).

Lemma slice_len_in_range (k : Z) (len : nat) :
  (1 ≤ k ≤ Z.of_nat len)%Z → slice_len k len = Z.to_nat k.
Proof.
  intros Hk. unfold slice_len.
  destruct (Z.leb_spec 0 k); lia.
Qed.

Lemma nth_map_seq {B : Type} (f : nat → B) (m i : nat) (d : B) :
  i < m → nth i (map f (seq 0 m)) d = f i.
Proof.
  intros Hi. rewrite (nth_indep _ d (f 0)) by (rewrite length_map, length_seq; lia).
  rewrite map_nth, seq_nth by lia. done.
Qed.

Lemma resize_nth (sv : list F) (m i : nat) :
  i < m → i < length sv → nth i (resize sv m) s_zero = nth i sv s_zero.
Proof.
  intros Him Hi. unfold resize. destruct sv as [|s0 sv']; [simpl in Hi; lia|].
  rewrite nth_map_seq by done. rewrite Nat.mod_small by done.
  apply nth_indep. done.
Qed.

(** The middle factor before it is cut: the singular values on the
    diagonal of an array of the shape of [A]. *)
Lemma diag_of_spec (sv : list F) (m n : nat) :
  length sv = Nat.min m n →
  ∃ Sm, diag_of sv m n = Ok Sm ∧ shape Sm = (m, n)
        ∧ ∀ i j, i < Nat.min m n →
            elt Sm i j = s_mul (nth i sv s_zero)
                               (if i =? j then s_one else s_zero).
Proof.
  intros Hsv. unfold diag_of. destruct sv as [|s0 sv'] eqn:Esv.
  - eexists. split; [reflexivity|]. split; [done|].
    intros i j Hi. simpl in Hsv. lia.
  - destruct m as [|m'] eqn:Em; [simpl in Hsv; lia|].
    eexists. split; [reflexivity|]. split; [done|].
    intros i j Hi. cbn [elt eye]. rewrite resize_nth; [done|lia|].
    rewrite Hsv. lia.
Qed.

(** C9, as the code has it: [truncatedSVD] checks no rank.  Whenever
    [svd] returns factors of the shapes numpy documents, [truncatedSVD]
    returns for every integer [k] the slices [U[:, :k]], [S[:k, :k]] and
    [Vt[:k, :]], with the lengths Python gives a slice (so an
    out-of-range [k] is cut to the shape and a negative one counts from the
    end).  For [1 <= k <= min(terms, documents)] the shapes are terms×k,
    k×k and k×documents, and the entry (i, j) of the middle factor is the
    i-th singular value, in the order [svd] returned them, times the
    entry (i, j) of the identity. *)
Theorem truncatedSVD_shapes (A : matrix F) (k : Z)
    (U : matrix F) (sv : list F) (Vt : matrix F) :
  let m := shape0 A in
  let n := shape1 A in
  svd A = Ok (U, sv, Vt) →
  shape U = (m, m) → length sv = Nat.min m n → shape Vt = (n, n) →
  ∃ Uk Sk Vtk,
    truncatedSVD svd A k = Ok (Uk, Sk, Vtk)
    ∧ shapes3 (Uk, Sk, Vtk)
      = ((m, slice_len k m), (slice_len k m, slice_len k n), (slice_len k n, n))
    ∧ (∀ i j, elt Uk i j = elt U i j) ∧ (∀ i j, elt Vtk i j = elt Vt i j)
    ∧ ((1 ≤ k ≤ Z.of_nat (Nat.min m n))%Z →
       let k' := Z.to_nat k in
       shapes3 (Uk, Sk, Vtk) = ((m, k'), (k', k'), (k', n))
       ∧ ∀ i j, i < k' → j < k' →
           elt Sk i j = s_mul (nth i sv s_zero)
                              (if i =? j then s_one else s_zero)).
Proof.
  intros m n Hsvd HU Hsv HVt. unfold truncatedSVD. rewrite Hsvd. simpl.
  injection HU as HU0 HU1. injection HVt as HVt0 HVt1.
  destruct (diag_of_spec sv m n Hsv) as (Sm&HSm&HSs&HSe).
  fold m n. rewrite HSm. simpl. eexists _, _, _. split; [reflexivity|].
  injection HSs as HS0 HS1.
  unfold shapes3, shape. simpl. rewrite HU0, HVt1, HS0, HS1, HVt0, HU1.
  split; [done|]. split; [done|]. split; [done|].
  intros Hk. rewrite !slice_len_in_range by lia. split; [done|].
  intros i j Hi Hj. apply HSe. lia.
Qed.

End Decomposer.

(** C9 as stated fails: on the identity of size 3 the ranks 0, 7 and -1
    are accepted. *)
Lemma rank_out_of_range_accepted :
  (r ← truncatedSVD svd_diag (eye 3 3) 0; Ok (shapes3 r))
  = Ok ((3, 0), (0, 0), (0, 3))
  ∧ (r ← truncatedSVD svd_diag (eye 3 3) 7; Ok (shapes3 r))
    = Ok ((3, 3), (3, 3), (3, 3))
  ∧ (r ← truncatedSVD svd_diag (eye 3 3) (-1); Ok (shapes3 r))
    = Ok ((3, 2), (2, 2), (2, 3)).
Proof. repeat split; vm_compute; reflexivity. Qed.

Lemma truncatedSVD_shapes_witness :
  ∃ Uk Sk Vtk,
    truncatedSVD svd_diag (eye 3 3) 2 = Ok (Uk, Sk, Vtk)
    ∧ shapes3 (Uk, Sk, Vtk) = ((3, 2), (2, 2), (2, 3)).
Proof.
  destruct (truncatedSVD_shapes svd_diag (eye 3 3) 2 (eye 3 3)
              [1%float; 1%float; 1%float] (eye 3 3))
    as (Uk&Sk&Vtk&Hr&Hs&_); [reflexivity..|].
  exists Uk, Sk, Vtk. split; [exact Hr|exact Hs].
Defined.

Section Sorting.
Context {F : Type} `{Scalar F}.

Lemma key_order_subseteq (ds ds' : list F) :
  ds' ⊆ ds → key_order ds → key_order ds'.
Proof. intros Hsub Hord x y z Hx Hy Hz. apply Hord; by apply Hsub. Qed.

(** *** The insertion sort *)

Lemma insert_by_key_perm (x : nat * F) (l : list (nat * F)) :
  insert_by_key x l ≡ₚ x :: l.
Proof.
  induction l as [|y l IH]; simpl; [done|].
  destruct (s_ltb x.2 y.2); [done|]. rewrite IH. apply Permutation_swap.
Qed.

Lemma sort_by_key_snoc (l : list (nat * F)) (x : nat * F) :
  sort_by_key (l ++ [x]) = insert_by_key x (sort_by_key l).
Proof. unfold sort_by_key. by rewrite foldl_app. Qed.

Lemma sort_by_key_perm (l : list (nat * F)) : sort_by_key l ≡ₚ l.
Proof.
  induction l as [|x l IH] using rev_ind; [done|].
  rewrite sort_by_key_snoc, insert_by_key_perm, IH.
  by rewrite Permutation_app_comm.
Qed.

(** An element that nothing in a list exceeds goes to its end. *)
Lemma insert_by_key_last (x : nat * F) (l : list (nat * F)) :
  Forall (λ y, s_ltb x.2 y.2 = false) l → insert_by_key x l = l ++ [x].
Proof.
  induction 1 as [|y l Hy _ IH]; simpl; [done|]. by rewrite Hy, IH.
Qed.

(** Sorting a list that is in order changes nothing. *)
Lemma sort_by_key_sorted (l : list (nat * F)) :
  StronglySorted (λ a b, s_ltb b.2 a.2 = false) l → sort_by_key l = l.
Proof.
  induction l as [|x l IH] using rev_ind; [done|]. intros Hs.
  apply StronglySorted_app in Hs as (Hx & Hl & _).
  rewrite sort_by_key_snoc, IH by done. apply insert_by_key_last.
  apply Forall_forall. intros y Hy. apply (Hx y x Hy). left.
Qed.

Lemma ranks_before_le (self : @SearchEngine F) (l : list (nat * F)) :
  StronglySorted (ranks_before self) l →
  StronglySorted (λ a b, s_ltb b.2 a.2 = false) l.
Proof.
  induction 1 as [|x l Hl IH Hx]; constructor; [done|].
  eapply Forall_impl; [exact Hx|]. by intros y [? _].
Qed.

(** Inserting the pair of the next document keeps the ranking in order. *)
Lemma insert_by_key_ranked (self : @SearchEngine F) (x : nat * F)
    (l : list (nat * F)) :
  key_order (x.2 :: l.*2) →
  Forall (λ y, y.1 < x.1 ∧ str_lt (url_at self y.1) (url_at self x.1)) l →
  StronglySorted (ranks_before self) l →
  StronglySorted (ranks_before self) (insert_by_key x l).
Proof.
  intros Hord Hidx Hs. induction Hs as [|y l Hl IH Hy]; simpl.
  - repeat constructor.
  - inversion_clear Hidx as [|?? Hyx Hidx'].
    assert (Hx_in : x.2 ∈ x.2 :: (y :: l).*2) by left.
    assert (Hy_in : y.2 ∈ x.2 :: (y :: l).*2) by (right; left).
    destruct (s_ltb x.2 y.2) eqn:Hxy.
    + constructor; [by constructor|].
      destruct (Hord _ _ y.2 Hx_in Hy_in Hy_in Hxy) as [Hyx' _].
      constructor.
      { split; [done|]. by rewrite Hxy. }
      apply Forall_forall. intros z Hz.
      assert (Hz_in : z.2 ∈ x.2 :: (y :: l).*2).
      { right; right. by apply list_elem_of_fmap_2. }
      rewrite Forall_forall in Hy. destruct (Hy z Hz) as [Hzy _].
      destruct (Hord _ _ z.2 Hx_in Hy_in Hz_in Hxy) as [_ [Hxz|Hzy']];
        [|congruence].
      destruct (Hord _ _ x.2 Hx_in Hz_in Hx_in Hxz) as [Hzx _].
      split; [done|]. by rewrite Hxz.
    + constructor.
      * apply IH; [|done].
        eapply key_order_subseteq; [|exact Hord].
        intros a [->|Ha]%elem_of_cons; [left|by right; right].
      * rewrite insert_by_key_perm. constructor; [|done].
        split; [done|]. by intros _.
Qed.

(** *** The loop of [nearest_urls] *)

Lemma rank_loop_perm (pairs acc : list (nat * F)) :
  foldl (λ acc x, sort_by_key (acc ++ [x])) acc pairs ≡ₚ acc ++ pairs.
Proof.
  revert acc. induction pairs as [|x pairs IH]; intros acc; simpl.
  - by rewrite app_nil_r.
  - rewrite IH, sort_by_key_perm. by rewrite <- app_assoc.
Qed.

Lemma rank_loop_sorted (self : @SearchEngine F) (i0 : nat) (ds : list F)
    (acc : list (nat * F)) :
  key_order (acc.*2 ++ ds) →
  (∀ i j, i < j → j < i0 + length ds →
          str_lt (url_at self i) (url_at self j)) →
  Forall (λ y, y.1 < i0) acc →
  StronglySorted (ranks_before self) acc →
  StronglySorted (ranks_before self)
    (foldl (λ acc x, sort_by_key (acc ++ [x])) acc
           (zip (seq i0 (length ds)) ds)).
Proof.
  revert i0 acc. induction ds as [|d ds IH]; intros i0 acc Hord Hurl Hidx Hs;
    simpl; [done|].
  rewrite sort_by_key_snoc, sort_by_key_sorted
    by (by apply (ranks_before_le self)).
  simpl in Hurl. apply IH.
  - eapply key_order_subseteq; [|exact Hord]. intros a.
    rewrite insert_by_key_perm, fmap_cons. simpl.
    rewrite !elem_of_app, !elem_of_cons, !elem_of_app. tauto.
  - intros i j Hij Hj. apply Hurl; lia.
  - rewrite insert_by_key_perm. constructor; [simpl; lia|].
    eapply Forall_impl; [exact Hidx|]. simpl. lia.
  - apply insert_by_key_ranked; [| |done].
    + eapply key_order_subseteq; [|exact Hord]. intros a. simpl.
      rewrite elem_of_app, !elem_of_cons. tauto.
    + eapply Forall_impl; [exact Hidx|]. simpl. intros y Hy.
      split; [done|]. apply Hurl; lia.
Qed.
End Sorting.

Section RankLoop.
Context {F : Type} `{Scalar F}.
Variable arccos : F → F.

Lemma cos_distances_loop (self : @SearchEngine F) (qhat : list F)
    (idx : list nat) (ds : list F) (acc : list (nat * F)) :
  Forall2 (λ i d, distance_of arccos self qhat i = Ok d) idx ds →
  foldM (λ cos_distances i,
           p ← get_column (se_Vt self) i;
           d ← cosDist arccos p qhat;
           Ok (sort_by_key (cos_distances ++ [(i, d)])))
        acc idx
  = Ok (foldl (λ acc x, sort_by_key (acc ++ [x])) acc (zip idx ds)).
Proof.
  intros Hds. revert acc. induction Hds as [|i d idx ds Hd _ IH]; intros acc.
  - done.
  - simpl. unfold distance_of in Hd.
    destruct (get_column (se_Vt self) i) as [p|]; [|done]. simpl in *.
    rewrite Hd. simpl. apply IH.
Qed.

End RankLoop.

Section RankerTheorems.
Context {F : Type} `{Scalar F}.
Variable arccos : F → F.

Lemma strictly_sorted_nth (l : list string) (i j : nat) :
  StronglySorted str_lt l → i < j → j < length l →
  str_lt (nth i l EmptyString) (nth j l EmptyString).
Proof.
  intros Hs. revert i j. induction Hs as [|x l Hs IH Hx]; intros i j Hij Hj.
  - simpl in Hj. lia.
  - destruct j as [|j]; [lia|]. simpl in Hj. destruct i as [|i]; simpl.
    + rewrite Forall_forall in Hx. apply Hx, list_elem_of_In, nth_In. lia.
    + apply IH; lia.
Qed.

Lemma map_nth_seq_id (l : list string) :
  map (λ i, nth i l EmptyString) (seq 0 (length l)) = l.
Proof.
  induction l as [|x l IH]; [done|]. simpl. f_equal.
  rewrite <- seq_shift, map_map. exact IH.
Qed.

Lemma distances_length (self : @SearchEngine F) (qhat ds : list F) :
  distances arccos self qhat ds → length ds = length (se_urls self).
Proof.
  intros Hds. apply Forall2_length in Hds. by rewrite length_seq in Hds.
Qed.

(** The list the loop of [nearest_urls] builds holds every document once,
    with its distance. *)
Lemma cos_distances_spec (self : @SearchEngine F) (qhat ds : list F) :
  distances arccos self qhat ds →
  ∃ ranked,
    cos_distances arccos self qhat = Ok ranked
    ∧ ranked ≡ₚ zip (seq 0 (length (se_urls self))) ds
    ∧ (key_order ds → StronglySorted str_lt (se_urls self) →
       StronglySorted (ranks_before self) ranked).
Proof.
  intros Hds. pose proof (distances_length self qhat ds Hds) as Hlen.
  eexists. split; [by apply cos_distances_loop|]. split.
  - by rewrite rank_loop_perm.
  - intros Hord Hs. rewrite <- Hlen.
    apply rank_loop_sorted; [exact Hord| |constructor|constructor].
    intros i j Hij Hj. apply strictly_sorted_nth; [done..|]. lia.
Qed.

Lemma nearest_urls_spec (self : @SearchEngine F) (qhat ds : list F)
    (no_results : option Z) :
  distances arccos self qhat ds →
  ∃ ranked,
    cos_distances arccos self qhat = Ok ranked
    ∧ ranked ≡ₚ zip (seq 0 (length (se_urls self))) ds
    ∧ (key_order ds → StronglySorted str_lt (se_urls self) →
       StronglySorted (ranks_before self) ranked)
    ∧ nearest_urls arccos self qhat no_results
      = Ok (map (λ pair, url_at self pair.1)
                (slice_to (effective_count self no_results) ranked)).
Proof.
  intros Hds. destruct (cos_distances_spec self qhat ds Hds) as (r&Hr&Hp&Hs).
  exists r. repeat (split; [done|]). unfold nearest_urls. by rewrite Hr.
Qed.


Lemma ranked_length (self : @SearchEngine F) (qhat ds : list F)
    (ranked : list (nat * F)) :
  distances arccos self qhat ds →
  ranked ≡ₚ zip (seq 0 (length (se_urls self))) ds →
  length ranked = length (se_urls self)
  ∧ ranked.*1 ≡ₚ seq 0 (length (se_urls self)).
Proof.
  intros Hds Hp. apply distances_length in Hds. split.
  - rewrite Hp, length_zip, length_seq. lia.
  - rewrite Hp, fst_zip; [done|]. rewrite length_seq. lia.
Qed.

Lemma slice_to_fst (n : Z) (l : list (nat * F)) :
  (slice_to n l).*1 = slice_to n l.*1.
Proof. unfold slice_to. by rewrite fmap_take, length_fmap. Qed.

(** The identifiers of a slice of the ranking: they are distinct documents,
    and all of them when the slice is the whole ranking. *)
Lemma ranked_urls (self : @SearchEngine F) (ranked : list (nat * F)) (n : Z) :
  NoDup (se_urls self) →
  ranked.*1 ≡ₚ seq 0 (length (se_urls self)) →
  let out := map (λ pair, url_at self pair.1) (slice_to n ranked) in
  length out = slice_len n (length (se_urls self))
  ∧ NoDup out ∧ out ⊆ se_urls self
  ∧ (length (se_urls self) ≤ slice_len n (length (se_urls self)) →
     out ≡ₚ se_urls self).
Proof.
  intros Hnd Hp out.
  assert (Hlen : length ranked = length (se_urls self)).
  { by rewrite <- (length_fmap fst), Hp, length_seq. }
  assert (Hout : out = url_at self <$> slice_to n ranked.*1).
  { unfold out. rewrite <- slice_to_fst. by rewrite <- list_fmap_compose. }
  assert (Hin : ∀ i, i ∈ slice_to n ranked.*1 → i < length (se_urls self)).
  { intros i Hi. unfold slice_to in Hi. apply elem_of_take in Hi as (j&Hj&_).
    apply list_elem_of_lookup_2 in Hj. rewrite Hp in Hj.
    apply elem_of_seq in Hj. lia. }
  split; [|split; [|split]].
  - unfold out, slice_to. rewrite length_map, length_take, Hlen.
    unfold slice_len. destruct (0 <=? n)%Z; lia.
  - rewrite Hout. apply NoDup_fmap_2_strong.
    + intros i j Hi Hj Heq. apply Hin in Hi, Hj.
      apply NoDup_ListNoDup in Hnd.
      by apply (proj1 (List.NoDup_nth (se_urls self) EmptyString) Hnd).
    + unfold slice_to. eapply sublist_NoDup; [|apply sublist_take].
      rewrite Hp. apply NoDup_seq.
  - rewrite Hout. intros u (i&->&Hi)%list_elem_of_fmap.
    apply list_elem_of_In, nth_In. by apply Hin.
  - intros Hall. rewrite Hout. unfold slice_to.
    rewrite take_ge by (rewrite length_fmap, Hlen; lia).
    rewrite Hp. apply reflexive_eq, map_nth_seq_id.
Qed.

(** C7, as the code has it: for an engine built on a corpus's document
    index, with [d] documents whose distances are computed, and a requested
    result count [N] other than 0, [nearest_urls] returns without failing
    the identifiers of the first [N] documents of the ranking as a Python
    slice cuts them: distinct documents, exactly [min(N, d)] of them for
    [N >= 1] and all [d] of them when [N >= d].  (A count of 0 is replaced
    by the engine's default; a negative count drops documents from the end
    of the ranking.) *)
Theorem nearest_urls_count (data : corpus) (self : @SearchEngine F)
    (qhat ds : list F) (N : Z) :
  let d := length (se_urls self) in
  extractData data = Ok (se_urls self, se_tags self) →
  distances arccos self qhat ds →
  N ≠ 0%Z →
  ∃ out,
    nearest_urls arccos self qhat (Some N) = Ok out
    ∧ length out = slice_len N d
    ∧ NoDup out ∧ out ⊆ se_urls self
    ∧ ((1 ≤ N)%Z → length out = Nat.min (Z.to_nat N) d)
    ∧ ((Z.of_nat d ≤ N)%Z → out ≡ₚ se_urls self).
Proof.
  intros d Hex Hds HN.
  destruct (extractData_spec data) as (urls&tags&Hex'&Hsu&_).
  rewrite Hex in Hex'. injection Hex' as <- <-.
  apply strictly_sorted_NoDup in Hsu.
  destruct (nearest_urls_spec self qhat ds (Some N) Hds)
    as (ranked&_&Hp&_&Hout).
  destruct (ranked_length self qhat ds ranked Hds Hp) as [_ Hfst].
  destruct (ranked_urls self ranked N Hsu Hfst) as (Hlen&Hnd&Hsub&Hall).
  assert (effective_count self (Some N) = N) as HeN by by destruct N.
  rewrite HeN in Hout. eexists. split; [exact Hout|].
  repeat (split; [done|]). fold d in Hlen, Hall. split.
  - intros HN1. rewrite Hlen. unfold slice_len.
    destruct (Z.leb_spec 0 N); lia.
  - intros HNd. apply Hall. unfold slice_len.
    destruct (Z.leb_spec 0 N); lia.
Qed.


End RankerTheorems.


(** C7 as stated fails: on the engine of [corpus3], whose default result
    count is 5, a requested count of 0 returns three documents and a
    requested count of -1 returns two. *)
Lemma override_zero_count :
  (e ← engine3 3 5; nearest_urls arccos_ref e qhat_cat (Some 0%Z))
  = Ok ["docA"; "docB"; "docC"]%string
  ∧ (e ← engine3 3 5; nearest_urls arccos_ref e qhat_cat (Some (-1)%Z))
    = Ok ["docA"; "docB"]%string.
Proof. split; vm_compute; reflexivity. Qed.

Lemma nearest_urls_count_witness :
  ∃ self,
    engine3 3 5 = Ok self
    ∧ ∃ out,
        nearest_urls arccos_ref self qhat_cat (Some 2%Z) = Ok out
        ∧ length out = slice_len 2 (length (se_urls self))
        ∧ NoDup out ∧ out ⊆ se_urls self
        ∧ ((1 ≤ 2)%Z → length out = Nat.min (Z.to_nat 2) (length (se_urls self)))
        ∧ ((Z.of_nat (length (se_urls self)) ≤ 2)%Z → out ≡ₚ se_urls self).
Proof.
  eexists. split; [vm_compute; reflexivity|].
  apply (nearest_urls_count arccos_ref corpus3 _ qhat_cat ds_cat 2).
  - vm_compute. reflexivity.
  - repeat (constructor; [vm_compute; reflexivity|]). constructor.
  - discriminate.
Defined.



Section Projector.
Context {F : Type} `{Scalar F}.

Lemma mdot_total (A : matrix F) (v : list F) :
  shape1 A = length v →
  ∃ w, mdot A v = Ok w ∧ length w = shape0 A.
Proof.
  intros Hs. unfold mdot. rewrite Hs, Nat.eqb_refl. eexists.
  split; [done|]. by rewrite length_map, length_seq.
Qed.

Lemma projection_total (self : @SearchEngine F) (q : list F) :
  well_shaped self → length q = se_no_tags self →
  ∃ t, projection self q = Ok t
       ∧ length t = shape0 (se_Si self)
       ∧ project self q = Ok (vdiv t (norm t)).
Proof.
  intros (HUt&HSi&_) Hq. unfold projection, project.
  destruct (mdot_total (se_Ut self) q) as (u&->&Hu); [congruence|]. simpl.
  destruct (mdot_total (se_Si self) u) as (t&->&Ht); [congruence|]. simpl.
  by exists t.
Qed.

(** A query of unknown key words leaves the zero vector untouched. *)
Lemma build_query_vector_unknown (self : @SearchEngine F)
    (key_words : list string) :
  (∀ key, key ∈ key_words → key ∉ se_tags self) →
  build_query_vector self key_words = Ok (zeros (se_no_tags self)).
Proof.
  intros Hun. unfold build_query_vector. f_equal.
  generalize (zeros (F := F) (se_no_tags self)). 
  induction key_words as [|key kws IH]; intros q; simpl; [done|].
  rewrite list_index_absent by (apply Hun; left).
  apply IH. intros k Hk. apply Hun. by right.
Qed.

(** The query vector is the indicator of the key words on the vocabulary. *)
Lemma build_query_vector_indicator (self : @SearchEngine F)
    (key_words : list string) :
  se_no_tags self = length (se_tags self) → NoDup (se_tags self) →
  ∃ q, build_query_vector self key_words = Ok q
    ∧ length q = se_no_tags self
    ∧ ∀ i term, se_tags self !! i = Some term →
        q !! i = Some (if decide (term ∈ key_words) then s_one else s_zero).
Proof.
  intros Hn Hnd. eexists. split; [reflexivity|].
  induction key_words as [|key kws [Hlen IH]] using rev_ind.
  - split; [apply length_zeros|]. intros i term Hi.
    rewrite decide_False by apply not_elem_of_nil.
    apply lookup_replicate_2. apply lookup_lt_Some in Hi. lia.
  - rewrite foldl_app. cbn [foldl].
    destruct (list_index key (se_tags self)) as [r|e] eqn:Hr.
    + apply list_index_lookup in Hr. split; [by rewrite length_insert|].
      intros i term Hi. destruct (decide (i = r)) as [->|Hne].
      * rewrite list_lookup_insert_eq
          by (rewrite Hlen, Hn; by eapply lookup_lt_Some).
        assert (term = key) as -> by congruence.
        rewrite decide_True; [done|]. apply elem_of_app. right. left.
      * rewrite list_lookup_insert_ne by done. rewrite (IH i term Hi).
        assert (term ≠ key) as Hne'.
        { intros ->. apply Hne. by eapply NoDup_lookup. }
        destruct (decide (term ∈ kws)) as [Hin|Hnin].
        -- rewrite decide_True; [done|]. apply elem_of_app. by left.
        -- rewrite decide_False; [done|].
           intros [?|Hk%list_elem_of_singleton]%elem_of_app; done.
    + split; [done|]. intros i term Hi. rewrite (IH i term Hi).
      assert (term ≠ key) as Hne'.
      { intros ->. apply list_elem_of_lookup_2 in Hi.
        apply list_index_elem in Hi as [r Hr']. congruence. }
      destruct (decide (term ∈ kws)) as [Hin|Hnin].
      * rewrite decide_True; [done|]. apply elem_of_app. by left.
      * rewrite decide_False; [done|].
        intros [?|Hk%list_elem_of_singleton]%elem_of_app; done.
Qed.

Variable arccos : F → F.

(** With conforming arrays every column has a distance to a vector of the
    reduced dimension. *)
Lemma distances_total (self : @SearchEngine F) (qhat : list F) :
  well_shaped self → length qhat = shape0 (se_Si self) →
  ∃ ds, distances arccos self qhat ds.
Proof.
  intros (_&_&HVt0&HVt1) Hq. unfold distances. rewrite <- HVt1.
  assert (Hall : ∀ i, i ∈ seq 0 (shape1 (se_Vt self)) →
                   ∃ d, distance_of arccos self qhat i = Ok d).
  { intros i Hi%elem_of_seq. unfold distance_of, get_column.
    destruct (Nat.ltb_spec i (shape1 (se_Vt self))); [|lia]. simpl.
    unfold cosDist, cosDist_arg, dot, column.
    rewrite length_map, length_seq, Hq, HVt0, Nat.eqb_refl. simpl. by eexists. }
  induction (seq 0 (shape1 (se_Vt self))) as [|i l IH].
  - exists []. constructor.
  - destruct (Hall i) as [d Hd]; [left|].
    destruct IH as [ds Hds]. { intros j Hj. apply Hall. by right. }
    exists (d :: ds). by constructor.
Qed.

End Projector.

Section FloatProjector.
Variable arccos : float → float.

(** C2, as the code has it: a query none of whose terms is in the
    vocabulary is not rejected.  On an engine with conforming arrays of
    finite floats its query vector is the zero vector, [project] divides
    the projection of the zero vector by its norm 0 and returns a vector
    of [nan], and [search] returns a ranking of the default length. *)
Theorem unknown_query_projects (self : @SearchEngine float)
    (key_words : list string) :
  well_shaped self →
  finite_entries (se_Ut self) → finite_entries (se_Si self) →
  (∀ key, key ∈ key_words → key ∉ se_tags self) →
  build_query_vector self key_words = Ok (zeros (se_no_tags self))
  ∧ project self (zeros (se_no_tags self))
    = Ok (replicate (shape0 (se_Si self)) nan)
  ∧ ∃ out,
      search arccos self key_words = Ok out
      ∧ length out = slice_len (se_no_results self) (length (se_urls self)).
Proof.
  intros Hws HfU HfS Hun.
  pose proof (build_query_vector_unknown self key_words Hun) as Hq.
  destruct (project_zeros self Hws HfU HfS) as [_ Hp].
  split; [done|]. split; [done|].
  destruct (distances_total arccos self (replicate (shape0 (se_Si self)) nan) Hws)
    as [ds Hds]; [apply length_replicate|].
  destruct (nearest_urls_spec arccos self _ ds None Hds)
    as (ranked&_&Hperm&_&Hout).
  destruct (ranked_length arccos self _ ds ranked Hds Hperm) as [Hrl _].
  eexists. unfold search. rewrite Hq. simpl. rewrite Hp. simpl.
  split; [exact Hout|].
  unfold slice_to. rewrite length_map, length_take, Hrl. simpl.
  unfold slice_len. destruct (0 <=? se_no_results self)%Z; lia.
Qed.

End FloatProjector.

(** C2 as stated fails: on the engine of [corpus3] the query "zebra" is
    projected to a vector of [nan], and [search] returns a ranking. *)
Lemma unknown_query_not_rejected :
  (e ← engine3 3 5; q ← build_query_vector e ["zebra"%string]; project e q)
  = Ok [nan; nan; nan]
  ∧ run_search 3 5 ["zebra"%string] = Ok ["docA"; "docB"; "docC"]%string.
Proof. split; vm_compute; reflexivity. Qed.

Lemma unknown_query_projects_witness :
  ∃ self : @SearchEngine float,
    engine3 3 5 = Ok self
    ∧ build_query_vector self ["zebra"%string] = Ok (zeros (se_no_tags self))
    ∧ project self (zeros (se_no_tags self))
      = Ok (replicate (shape0 (se_Si self)) nan)
    ∧ ∃ out,
        search arccos_ref self ["zebra"%string] = Ok out
        ∧ length out = slice_len (se_no_results self) (length (se_urls self)).
Proof.
  eexists. split; [vm_compute; reflexivity|].
  apply (unknown_query_projects arccos_ref).
  - repeat split.
  - intros i j Hi Hj. simpl in *.
    destruct i as [|[|[|i]]]; [..|lia];
      (destruct j as [|[|[|j]]]; [..|lia]); reflexivity.
  - intros i j Hi Hj. simpl in *.
    destruct i as [|[|[|i]]]; [..|lia];
      (destruct j as [|[|[|j]]]; [..|lia]); reflexivity.
  - intros key ->%list_elem_of_singleton. vm_compute.
    intros Hin. repeat (apply elem_of_cons in Hin as [[=]|Hin]).
    by apply elem_of_nil in Hin.
Defined.

Section Exact.
Local Open Scope R_scope.

Lemma sum_prod_acc (l : list (R * R)) (a : R) :
  foldl (λ acc xy, s_add acc (s_mul xy.1 xy.2)) a l
  = a + foldl (λ acc xy, s_add acc (s_mul xy.1 xy.2)) 0 l.
Proof.
  revert a. induction l as [|[x y] l IH]; intros a; cbn [foldl].
  - lra.
  - rewrite IH, (IH (s_add 0 _)). simpl. lra.
Qed.

Lemma sum_prod_cons (x y : R) (p q : list R) :
  sum_prod (x :: p) (y :: q) = x * y + sum_prod p q.
Proof.
  unfold sum_prod. cbn [zip zip_with foldl]. rewrite sum_prod_acc. simpl. lra.
Qed.

Lemma sum_prod_self_nonneg (v : list R) : 0 <= sum_prod v v.
Proof.
  induction v as [|x v IH]; [unfold sum_prod; simpl; lra|].
  rewrite sum_prod_cons. nra.
Qed.

(** The Cauchy-Schwarz inequality for [dot]. *)
Lemma cauchy_schwarz (p q : list R) :
  length p = length q →
  sum_prod p q * sum_prod p q <= sum_prod p p * sum_prod q q.
Proof.
  revert q. induction p as [|x p IH]; intros [|y q] Hlen; try done.
  rewrite !sum_prod_cons.
  specialize (IH q ltac:(simpl in Hlen; lia)).
    pose proof (sum_prod_self_nonneg p) as Ha.
    pose proof (sum_prod_self_nonneg q) as Hb.
    set (s := sum_prod p q) in *. set (a := sum_prod p p) in *.
    set (b := sum_prod q q) in *. clearbody s a b.
    assert (Hcross : 2 * (x * y * s) <= x * x * b + y * y * a).
    { destruct (Rle_lt_or_eq_dec 0 a Ha) as [Hpos | <-].
      - assert (0 <= a * (x * x * b + y * y * a - 2 * (x * y * s))).
        { assert (0 <= (x * x) * (a * b - s * s)) by nra.
          assert (0 <= (x * s - y * a) * (x * s - y * a))
            by apply Rle_0_sqr.
          nra. }
        nra.
      - assert (s = 0) by nra. subst s. nra. }
    nra.
Qed.

Lemma dot_bound (p q : list R) :
  length p = length q → Rabs (sum_prod p q) <= norm p * norm q.
Proof.
  intros Hlen. unfold norm. simpl.
  rewrite <- sqrt_mult by apply sum_prod_self_nonneg.
  rewrite <- sqrt_Rsqr_abs. apply sqrt_le_1.
  - apply Rle_0_sqr.
  - apply Rmult_le_pos; apply sum_prod_self_nonneg.
  - by apply cauchy_schwarz.
Qed.

Lemma norm_nonneg (v : list R) : 0 <= norm v.
Proof. apply sqrt_pos. Qed.

(** C6, as the code has it: [cosDist] hands the quotient
    [dot(q, p) / (norm(q) * norm(p))] to [arccos] as it is, with no clamp.
    In exact arithmetic that quotient lies in [-1, 1] for vectors of equal
    length and non-zero norm (Cauchy-Schwarz); nothing in the code keeps a
    rounded quotient there. *)
Theorem cosDist_arg_exact_bounds (arccos : R → R) (p q : list R) :
  length p = length q → norm p ≠ 0 → norm q ≠ 0 →
  ∃ x, cosDist_arg p q = Ok x
       ∧ x = sum_prod q p / (norm q * norm p)
       ∧ cosDist arccos p q = Ok (arccos x)
       ∧ -1 <= x <= 1.
Proof.
  intros Hlen Hp Hq. unfold cosDist, cosDist_arg, dot.
  rewrite Hlen, Nat.eqb_refl. simpl.
  exists (sum_prod q p / (norm q * norm p)). repeat (split; [reflexivity|]).
  pose proof (dot_bound q p (eq_sym Hlen)) as Hb.
  pose proof (norm_nonneg p). pose proof (norm_nonneg q).
  assert (HD : 0 < norm q * norm p) by nra.
  set (D := norm q * norm p) in *. set (s := sum_prod q p) in *.
  clearbody D s.
  assert (- D <= s <= D) by (unfold Rabs in Hb; destruct (Rcase_abs s); lra).
  assert (Hx : s / D * D = s) by (field; lra).
  set (x := s / D) in *. clearbody x. split; nra.
Qed.

Lemma sum_prod_vdiv (v : list R) (c : R) :
  c ≠ 0 → sum_prod (vdiv v c) (vdiv v c) = sum_prod v v / (c * c).
Proof.
  intros Hc. induction v as [|x v IH].
  - unfold sum_prod. simpl. field. done.
  - change (vdiv (x :: v) c) with (x / c :: vdiv v c).
    rewrite !sum_prod_cons, IH. field. done.
Qed.

(** Dividing a vector by its non-zero norm gives a unit vector. *)
Lemma norm_vdiv (v : list R) : norm v ≠ 0 → norm (vdiv v (norm v)) = 1.
Proof.
  intros Hn. unfold norm at 1. rewrite sum_prod_vdiv by done.
  unfold norm. simpl. rewrite sqrt_sqrt by apply sum_prod_self_nonneg.
  assert (sum_prod v v ≠ 0).
  { intros H0. apply Hn. unfold norm. simpl. rewrite H0. apply sqrt_0. }
  replace (sum_prod v v / sum_prod v v) with 1 by (field; done).
  apply sqrt_1.
Qed.


End Exact.

Lemma cosDist_arg_exact_bounds_witness :
  ∃ x : R, cosDist_arg [1; 0]%R [0; 1]%R = Ok x
       ∧ x = (sum_prod [0; 1] [1; 0] / (norm [0; 1] * norm [1; 0]))%R
       ∧ cosDist acos [1; 0]%R [0; 1]%R = Ok (acos x)
       ∧ (-1 <= x <= 1)%R.
Proof.
  assert (Hn1 : norm [1; 0]%R = 1%R).
  { unfold norm, sum_prod. simpl.
    replace (0 + 1 * 1 + 0 * 0)%R with 1%R by lra. apply sqrt_1. }
  assert (Hn2 : norm [0; 1]%R = 1%R).
  { unfold norm, sum_prod. simpl.
    replace (0 + 0 * 0 + 1 * 1)%R with 1%R by lra. apply sqrt_1. }
  apply (cosDist_arg_exact_bounds acos [1; 0]%R [0; 1]%R).
  - reflexivity.
  - rewrite Hn1. lra.
  - rewrite Hn2. lra.
Defined.

(** C6 as stated fails: the unit vector along (1, 2), compared with
    itself, gives [arccos] a quotient above 1. *)
Lemma cosDist_arg_overshoot :
  let u := vdiv [1; 2]%float (norm [1; 2]%float) in
  cosDist_arg u u = Ok 0x1.0000000000001p+0%float
  ∧ PrimFloat.ltb 1 0x1.0000000000001p+0 = true
  ∧ ∀ arccos, cosDist arccos u u = Ok (arccos 0x1.0000000000001p+0%float).
Proof.
  cbv zeta. split; [vm_compute; reflexivity|]. split; [vm_compute; reflexivity|].
  intros arccos. reflexivity.
Qed.



Section Construction.
Context {F : Type} `{Scalar F}.
Variable svd : matrix F → result (matrix F * list F * matrix F).
Variable inv : matrix F → result (matrix F).

(** X1: an engine that [__init__] returns, with [svd] and [inv] returning
    arrays of the shapes numpy documents, holds the document index and the
    vocabulary of its corpus, its arrays conform, and it keeps the rank and
    the default result count it was given. *)
Theorem SearchEngine_init_conforms (data : corpus) (k n : Z)
    (self : @SearchEngine F) :
  svd_shapes svd → inv_shapes inv →
  SearchEngine_init svd inv data k n = Ok self →
  extractData data = Ok (se_urls self, se_tags self)
  ∧ se_no_tags self = length (se_tags self)
  ∧ NoDup (se_tags self)
  ∧ well_shaped self
  ∧ se_no_svd_components self = k ∧ se_no_results self = n.
Proof.
  intros Hsvd Hinv. unfold SearchEngine_init.
  destruct (extractData_spec data) as (urls&tags&Hex&_&_&Hst&_).
  rewrite Hex. simpl.
  destruct (generateCounts_spec (F := F) data urls tags Hex)
    as (A&HA&HA0&HA1&_).
  rewrite HA. simpl.
  destruct (normalize_some_columns (seq 0 (shape1 A)) A (NoDup_seq _ _))
    as (HA0'&HA1'&_).
  set (A' := foldl normalize_column A (seq 0 (shape1 A))) in *.
  destruct (truncatedSVD svd A' k) as [[[Uk Sk] Vtk]|e] eqn:Ht; [|done].
  simpl. destruct (inv Sk) as [Si|e] eqn:Hi; [|done]. simpl.
  intros [= <-]. simpl.
  unfold truncatedSVD in Ht.
  destruct (svd A') as [[[U sv] Vt]|e] eqn:Hs; [|done]. simpl in Ht.
  destruct (Hsvd A' U sv Vt Hs) as (HU&Hsv&HVt).
  destruct (diag_of_spec sv _ _ Hsv) as (Sm&HSm&HSs&_).
  rewrite HSm in Ht. simpl in Ht. injection Ht as <- <- <-.
  injection HU as HU0 HU1. injection HVt as HV0 HV1.
  injection HSs as HS0 HS1.
  destruct (Hinv _ Si Hi) as [Hsq HSi]. injection HSi as HSi0 HSi1.
  simpl in *.
  split; [done|]. split; [done|].
  split; [by apply strictly_sorted_NoDup|].
  split; [|done].
  unfold well_shaped. simpl. repeat split; congruence.
Qed.

End Construction.

Lemma svd_diag_shapes : svd_shapes svd_diag.
Proof.
  intros A U sv Vt. unfold svd_diag.
  destruct (is_diag_desc A) eqn:Hd; [|done]. intros [= <- <- <-].
  unfold is_diag_desc in Hd.
  apply andb_true_iff in Hd as [Hd _]. apply andb_true_iff in Hd as [Hd _].
  apply andb_true_iff in Hd as [_ Hd]. apply Nat.eqb_eq in Hd.
  unfold shape. simpl. rewrite length_map, length_seq, <- Hd.
  by rewrite Nat.min_id.
Qed.

Lemma inv_diag_shapes : inv_shapes inv_diag.
Proof.
  intros A Ai. unfold inv_diag.
  destruct (Nat.eqb_spec (shape0 A) (shape1 A)) as [Heq|]; [|done]. simpl.
  destruct (existsb _ _); [done|]. intros [= <-].
  unfold shape. simpl. by rewrite <- Heq.
Qed.

Lemma SearchEngine_init_conforms_witness :
  ∃ self,
    engine3 2 5 = Ok self
    ∧ extractData corpus3 = Ok (se_urls self, se_tags self)
    ∧ se_no_tags self = length (se_tags self)
    ∧ NoDup (se_tags self)
    ∧ well_shaped self
    ∧ se_no_svd_components self = 2%Z ∧ se_no_results self = 5%Z.
Proof.
  eexists. split; [vm_compute; reflexivity|].
  apply (SearchEngine_init_conforms svd_diag inv_diag corpus3 2 5).
  - exact svd_diag_shapes.
  - exact inv_diag_shapes.
  - vm_compute. reflexivity.
Defined.

Section ExactNormalizer.
Local Open Scope R_scope.

(** X2: in exact arithmetic every column of non-zero norm has norm 1 after
    [normalize_columns]. *)
Theorem normalize_columns_unit (arr : matrix R) (j : nat) :
  (j < shape1 arr)%nat → norm (column arr j) ≠ 0 →
  ∃ arr', normalize_columns arr = Ok arr' ∧ norm (column arr' j) = 1.
Proof.
  intros Hj Hn. eexists. split; [reflexivity|].
  destruct (normalize_some_columns (seq 0 (shape1 arr)) arr (NoDup_seq _ _))
    as (Hs0&_&He).
  set (arr' := foldl normalize_column arr (seq 0 (shape1 arr))) in *.
  assert (column arr' j = vdiv (column arr j) (norm (column arr j))) as ->.
  { unfold column, vdiv. rewrite Hs0, map_map. apply map_ext.
    intros i. rewrite He. rewrite decide_True; [done|].
    apply elem_of_seq. lia. }
  by apply norm_vdiv.
Qed.

End ExactNormalizer.

Lemma normalize_columns_unit_witness :
  ∃ arr', normalize_columns (Matrix 2 1 (λ i _, if i =? 0 then 3 else 4)%R)
          = Ok arr'
          ∧ norm (column arr' 0) = 1%R.
Proof.
  apply (normalize_columns_unit (Matrix 2 1 (λ i _, if i =? 0 then 3 else 4)%R) 0).
  - simpl. lia.
  - unfold norm, column, sum_prod. simpl.
    replace (0 + 3 * 3 + 4 * 4)%R with (5 * 5)%R by lra.
    rewrite sqrt_square by lra. lra.
Defined.

(** ** One sort instead of a sort after every append *)

Section SingleSort.
Context {F : Type} `{Scalar F}.

(** Inserting into a list in key order keeps it in key order. *)
Lemma insert_by_key_sorted (x : nat * F) (l : list (nat * F)) :
  key_order (x.2 :: l.*2) →
  StronglySorted (λ a b, s_ltb b.2 a.2 = false) l →
  StronglySorted (λ a b, s_ltb b.2 a.2 = false) (insert_by_key x l).
Proof.
  intros Hord Hs. induction Hs as [|y l Hl IH Hy]; simpl.
  - repeat constructor.
  - assert (Hx_in : x.2 ∈ x.2 :: (y :: l).*2) by left.
    assert (Hy_in : y.2 ∈ x.2 :: (y :: l).*2) by (right; left).
    destruct (s_ltb x.2 y.2) eqn:Hxy.
    + constructor; [by constructor|].
      destruct (Hord _ _ y.2 Hx_in Hy_in Hy_in Hxy) as [Hyx' _].
      constructor; [done|].
      apply Forall_forall. intros z Hz.
      assert (Hz_in : z.2 ∈ x.2 :: (y :: l).*2).
      { right; right. by apply list_elem_of_fmap_2. }
      rewrite Forall_forall in Hy. pose proof (Hy z Hz) as Hzy. simpl in Hzy.
      destruct (Hord _ _ z.2 Hx_in Hy_in Hz_in Hxy) as [_ [Hxz|Hzy']];
        [|congruence].
      by destruct (Hord _ _ x.2 Hx_in Hz_in Hx_in Hxz) as [Hzx _].
    + constructor.
      * apply IH.
        eapply key_order_subseteq; [|exact Hord].
        intros a [->|Ha]%elem_of_cons; [left|by right; right].
      * rewrite insert_by_key_perm. by constructor.
Qed.

Lemma sort_by_key_in_order (l : list (nat * F)) :
  key_order l.*2 →
  StronglySorted (λ a b, s_ltb b.2 a.2 = false) (sort_by_key l).
Proof.
  induction l as [|x l IH] using rev_ind; intros Hord; [constructor|].
  rewrite sort_by_key_snoc. apply insert_by_key_sorted.
  - eapply key_order_subseteq; [|exact Hord]. intros a.
    rewrite sort_by_key_perm, fmap_app. simpl.
    rewrite elem_of_cons, elem_of_app, list_elem_of_singleton. tauto.
  - apply IH. eapply key_order_subseteq; [|exact Hord]. intros a.
    rewrite fmap_app, elem_of_app. tauto.
Qed.

(** Sorting after every append gives what one sort at the end gives. *)
Lemma rank_loop_single_sort (pairs : list (nat * F)) :
  key_order pairs.*2 →
  foldl (λ acc x, sort_by_key (acc ++ [x])) [] pairs = sort_by_key pairs.
Proof.
  induction pairs as [|x l IH] using rev_ind; intros Hord; [done|].
  assert (Hl : key_order l.*2).
  { eapply key_order_subseteq; [|exact Hord]. intros a.
    rewrite fmap_app, elem_of_app. tauto. }
  rewrite foldl_app. cbn [foldl]. rewrite IH by done.
  rewrite !sort_by_key_snoc. f_equal.
  apply sort_by_key_sorted. by apply sort_by_key_in_order.
Qed.

(** When no key is smaller than another, sorting moves nothing. *)
Lemma sort_by_key_ties (l : list (nat * F)) :
  (∀ x y, x ∈ l.*2 → y ∈ l.*2 → s_ltb x y = false) → sort_by_key l = l.
Proof.
  induction l as [|x l IH] using rev_ind; intros Htie; [done|].
  rewrite sort_by_key_snoc, IH.
  - apply insert_by_key_last. apply Forall_forall. intros y Hy.
    apply Htie; rewrite fmap_app, elem_of_app.
    + right. simpl. left.
    + left. by apply list_elem_of_fmap_2.
  - intros a b Ha Hb. apply Htie; rewrite fmap_app, elem_of_app; by left.
Qed.

End SingleSort.

Section Ties.
Context {F : Type} `{Scalar F}.
Variable arccos : F → F.

Lemma zip_seq_snd (ds : list F) (n : nat) :
  length ds = n → (zip (seq 0 n) ds).*2 = ds.
Proof. intros Hn. apply snd_zip. rewrite length_seq. lia. Qed.

Lemma cos_distances_sorted_once (self : @SearchEngine F) (qhat ds : list F) :
  distances arccos self qhat ds → key_order ds →
  cos_distances arccos self qhat
  = Ok (sort_by_key (zip (seq 0 (length (se_urls self))) ds)).
Proof.
  intros Hds Hord. unfold cos_distances.
  rewrite (cos_distances_loop arccos self qhat _ ds) by exact Hds.
  f_equal. apply rank_loop_single_sort.
  rewrite zip_seq_snd; [done|]. by eapply distances_length.
Qed.

Lemma slice_to_map {A B : Type} (f : A → B) (n : Z) (l : list A) :
  map f (slice_to n l) = slice_to n (map f l).
Proof.
  unfold slice_to. rewrite length_map. apply (fmap_take f).
Qed.

Lemma ranking_in_index_order (self : @SearchEngine F) (qhat ds : list F)
    (no_results : option Z) :
  distances arccos self qhat ds →
  (∀ x y, x ∈ ds → y ∈ ds → s_ltb x y = false) →
  cos_distances arccos self qhat = Ok (zip (seq 0 (length (se_urls self))) ds)
  ∧ nearest_urls arccos self qhat no_results
    = Ok (slice_to (effective_count self no_results) (se_urls self)).
Proof.
  intros Hds Htie.
  pose proof (distances_length arccos self qhat ds Hds) as Hlen.
  assert (Hcd : cos_distances arccos self qhat
                = Ok (zip (seq 0 (length (se_urls self))) ds)).
  { rewrite (cos_distances_sorted_once self qhat ds Hds).
    - f_equal. apply sort_by_key_ties. by rewrite zip_seq_snd.
    - intros x y z Hx Hy _ Hxy. rewrite Htie in Hxy by done. done. }
  split; [done|]. unfold nearest_urls. rewrite Hcd, bind_Ok. f_equal.
  fold (effective_count self no_results).
  rewrite slice_to_map. f_equal.
  rewrite <- (map_map fst (λ i, nth i (se_urls self) EmptyString)).
  change (map fst ?l) with (l.*1).
  rewrite fst_zip by (rewrite length_seq; lia).
  apply map_nth_seq_id.
Qed.

(** X3: when [<] is a strict weak order on the distances, the loop of
    [nearest_urls], which sorts the list after every append, ends with the
    list that one stable sort of all the pairs gives. *)
Theorem cos_distances_single_sort (self : @SearchEngine F) (qhat ds : list F) :
  distances arccos self qhat ds → key_order ds →
  cos_distances arccos self qhat
  = Ok (sort_by_key (zip (seq 0 (length (se_urls self))) ds)).
Proof. apply cos_distances_sorted_once. Qed.

(** X4: when no distance is smaller than another (all are equal, or all
    are [nan]), the sort moves nothing: the ranking is the index order and
    [nearest_urls] returns the first documents of [self.urls]. *)
Theorem nearest_urls_ties_index_order (self : @SearchEngine F)
    (qhat ds : list F) (no_results : option Z) :
  distances arccos self qhat ds →
  (∀ x y, x ∈ ds → y ∈ ds → s_ltb x y = false) →
  cos_distances arccos self qhat = Ok (zip (seq 0 (length (se_urls self))) ds)
  ∧ nearest_urls arccos self qhat no_results
    = Ok (slice_to (effective_count self no_results) (se_urls self)).
Proof. apply ranking_in_index_order. Qed.

End Ties.

(** ** Degenerate distances *)

Section FloatDegenerate.

Lemma float_ltb_irrefl (x : float) : PrimFloat.ltb x x = false.
Proof.
  destruct (PrimFloat.ltb x x) eqn:E; [|done].
  by rewrite (float_ltb_asym x x E) in E.
Qed.

Lemma Prim2SF_nan : Prim2SF nan = S754_nan.
Proof. reflexivity. Qed.

Lemma mul_nan_l (y : float) : (nan * y)%float = nan.
Proof. apply Prim2SF_inj. by rewrite FloatAxioms.mul_spec. Qed.

Lemma add_nan_l (y : float) : (nan + y)%float = nan.
Proof. apply Prim2SF_inj. by rewrite FloatAxioms.add_spec. Qed.

Lemma add_nan_r (x : float) : (x + nan)%float = nan.
Proof.
  apply Prim2SF_inj. rewrite FloatAxioms.add_spec, Prim2SF_nan.
  by destruct (Prim2SF x).
Qed.

Lemma div_nan_l (y : float) : (nan / y)%float = nan.
Proof. apply Prim2SF_inj. by rewrite FloatAxioms.div_spec. Qed.

Lemma sum_from_nan (l : list (float * float)) :
  foldl (λ acc xy, s_add acc (s_mul xy.1 xy.2)) nan l = nan.
Proof.
  induction l as [|[x y] l IH]; [done|]. cbn [foldl].
  change (s_add nan (s_mul (x, y).1 (x, y).2)) with (nan + x * y)%float.
  by rewrite add_nan_l.
Qed.

(** The quotient of [cosDist] for a vector of [nan]. *)
Lemma cosDist_arg_nan (p : list float) :
  cosDist_arg p (replicate (length p) nan) = Ok nan.
Proof.
  unfold cosDist_arg, dot. rewrite length_replicate, Nat.eqb_refl, bind_Ok.
  f_equal. destruct p as [|x p]; [vm_compute; reflexivity|].
  assert (sum_prod (replicate (length (x :: p)) nan) (x :: p) = nan) as ->.
  { unfold sum_prod. cbn [length replicate zip zip_with foldl].
    change (s_add s_zero (s_mul (nan, x).1 (nan, x).2))
      with (0 + nan * x)%float.
    rewrite mul_nan_l, add_nan_r. apply sum_from_nan. }
  change (s_div nan ?d) with (nan / d)%float. apply div_nan_l.
Qed.

Variable arccos : float → float.

Lemma distances_nan (self : @SearchEngine float) :
  well_shaped self →
  distances arccos self (replicate (shape0 (se_Si self)) nan)
    (replicate (length (se_urls self)) (arccos nan)).
Proof.
  intros (_&_&HVt0&HVt1). unfold distances.
  apply Forall2_same_length_lookup. split.
  { by rewrite length_seq, length_replicate. }
  intros i j d Hj Hd.
  apply lookup_seq in Hj as [-> Hi]. apply lookup_replicate in Hd as [-> _].
  unfold distance_of, get_column. simpl.
  destruct (Nat.ltb_spec i (shape1 (se_Vt self))); [|lia]. rewrite bind_Ok.
  unfold cosDist.
  assert (shape0 (se_Si self) = length (column (se_Vt self) i)) as ->.
  { unfold column. by rewrite length_map, length_seq. }
  by rewrite cosDist_arg_nan.
Qed.

End FloatDegenerate.

Section FloatSymmetry.

Lemma SFmul_comm (x y : spec_float) :
  SFmul prec emax x y = SFmul prec emax y x.
Proof.
  destruct x as [sx|sx| |sx mx ex], y as [sy|sy| |sy my ey]; simpl;
    try reflexivity; rewrite ?(xorb_comm sx sy); try reflexivity.
  by rewrite (Pos.mul_comm mx my), (Z.add_comm ex ey).
Qed.

Lemma float_mul_comm (x y : float) : (x * y)%float = (y * x)%float.
Proof.
  apply Prim2SF_inj. rewrite !FloatAxioms.mul_spec. apply SFmul_comm.
Qed.

End FloatSymmetry.

Section Symmetry.
Context {F : Type} `{Scalar F}.
Hypothesis s_mul_comm : ∀ x y : F, s_mul x y = s_mul y x.

Lemma sum_prod_comm (p q : list F) : sum_prod p q = sum_prod q p.
Proof.
  unfold sum_prod. generalize (s_zero (F := F)). revert q.
  induction p as [|x p IH]; intros [|y q] a; try reflexivity.
  cbn [zip zip_with foldl]. simpl. unfold zip in IH.
  rewrite (s_mul_comm x y). apply IH.
Qed.

Lemma cosDist_comm (arccos : F → F) (p q : list F) :
  cosDist arccos p q = cosDist arccos q p.
Proof.
  unfold cosDist, cosDist_arg, dot.
  rewrite (Nat.eqb_sym (length q) (length p)).
  destruct (length p =? length q); [|done].
  by rewrite !bind_Ok, (sum_prod_comm q p), (s_mul_comm (norm q) (norm p)).
Qed.

End Symmetry.

(** X7: [cosDist(p, q) = cosDist(q, p)], to the last bit on floats: the
    products and the sum are taken in the same order, and IEEE
    multiplication is commutative.  Vectors of different lengths raise
    [ValueError] in either order. *)
Theorem cosDist_symmetric :
  (∀ (arccos : float → float) (p q : list float),
     cosDist arccos p q = cosDist arccos q p)
  ∧ (∀ (arccos : R → R) (p q : list R),
       cosDist arccos p q = cosDist arccos q p).
Proof.
  split; intros arccos p q; apply cosDist_comm.
  - apply float_mul_comm.
  - apply Rmult_comm.
Qed.

Section FloatZero.

Lemma zero_or_nan_0 : zero_or_nan 0.
Proof. left. by exists false. Qed.

Lemma mul_zero_l (y : float) : zero_or_nan (0 * y).
Proof.
  unfold zero_or_nan. rewrite FloatAxioms.mul_spec.
  change (Prim2SF 0) with (S754_zero false).
  destruct (Prim2SF y) as [s|s| |s m e]; simpl; eauto.
Qed.

Lemma add_zero_or_nan (a b : float) :
  zero_or_nan a → zero_or_nan b → zero_or_nan (a + b).
Proof.
  unfold zero_or_nan. rewrite FloatAxioms.add_spec.
  intros [[sa ->]| ->] [[sb ->]| ->]; simpl; eauto.
  destruct sa, sb; eauto.
Qed.

Lemma div_zero_or_nan (a b : float) :
  zero_or_nan a → zero_or_nan b → (a / b)%float = nan.
Proof.
  intros Ha Hb. apply Prim2SF_inj. rewrite FloatAxioms.div_spec.
  by destruct Ha as [[sa ->]| ->], Hb as [[sb ->]| ->].
Qed.

Lemma sum_zeros_l (p : list float) (n : nat) (a : float) :
  zero_or_nan a →
  zero_or_nan (foldl (λ acc xy, s_add acc (s_mul xy.1 xy.2)) a
                     (zip (zeros n) p)).
Proof.
  revert n a. induction p as [|y p IH]; intros [|n] a Ha; try exact Ha.
  cbn [zeros replicate zip zip_with foldl]. apply IH.
  apply add_zero_or_nan; [done|]. apply mul_zero_l.
Qed.

Lemma sum_prod_zeros_l (p : list float) (n : nat) :
  zero_or_nan (sum_prod (zeros n) p).
Proof. apply sum_zeros_l, zero_or_nan_0. Qed.

(** The quotient of [cosDist] when one of the vectors is zero. *)
Lemma cosDist_arg_zeros (p : list float) :
  cosDist_arg p (zeros (length p)) = Ok nan.
Proof.
  unfold cosDist_arg, dot. rewrite length_zeros, Nat.eqb_refl, bind_Ok.
  f_equal. rewrite norm_zeros. apply div_zero_or_nan.
  - apply sum_prod_zeros_l.
  - apply mul_zero_l.
Qed.

End FloatZero.

(** X8: on floats the distance between any vector and the zero vector of its
    length is [arccos(nan)], in either order of the arguments: the quotient
    is [0/0], or has a [nan] in it, and nothing catches it. *)
Theorem cosDist_zero_vector (arccos : float → float) (p : list float) :
  cosDist arccos p (zeros (length p)) = Ok (arccos nan)
  ∧ cosDist arccos (zeros (length p)) p = Ok (arccos nan).
Proof.
  assert (Hz : cosDist arccos p (zeros (length p)) = Ok (arccos nan)).
  { unfold cosDist. by rewrite cosDist_arg_zeros. }
  split; [done|]. by rewrite (@cosDist_comm float float_scalar float_mul_comm).
Qed.

Section FloatUnknown.
Variable arccos : float → float.

(** X5: a query none of whose key words is in the vocabulary gets the first
    documents of the index, in its order: every distance is [arccos(nan)],
    no distance is smaller than another, and the sort moves nothing. *)
Theorem unknown_query_index_order (self : @SearchEngine float)
    (key_words : list string) :
  well_shaped self →
  finite_entries (se_Ut self) → finite_entries (se_Si self) →
  (∀ key, key ∈ key_words → key ∉ se_tags self) →
  search arccos self key_words
  = Ok (slice_to (se_no_results self) (se_urls self)).
Proof.
  intros Hws HfU HfS Hun. unfold search.
  rewrite (build_query_vector_unknown self key_words Hun), bind_Ok.
  destruct (project_zeros self Hws HfU HfS) as [_ ->]. rewrite bind_Ok.
  apply (ranking_in_index_order arccos self _ _ None (distances_nan arccos self Hws)).
  intros x y ->%elem_of_replicate_inv ->%elem_of_replicate_inv.
  apply float_ltb_irrefl.
Qed.

End FloatUnknown.

(** ** The ranking in terms of [<=] on floats *)

Lemma SFleb_of_not_ltb (x y : spec_float) :
  x ≠ S754_nan → y ≠ S754_nan → SFltb y x = false → SFleb x y = true.
Proof.
  unfold SFltb, SFleb.
  destruct x as [sx|sx| |sx mx ex], y as [sy|sy| |sy my ey]; simpl;
    try done; try (by destruct sx); try (by destruct sy);
    try (by destruct sx, sy).
  intros _ _.
  change (Pos.compare_cont Eq mx my) with (Pos.compare mx my).
  change (Pos.compare_cont Eq my mx) with (Pos.compare my mx).
  rewrite (Z.compare_antisym ey ex), (Pos.compare_antisym my mx).
  destruct sx, sy; try done;
    destruct (Z.compare ey ex); simpl; try done;
    destruct (Pos.compare my mx); simpl; done.
Qed.

Lemma float_leb_of_not_ltb (x y : float) :
  not_nan x → not_nan y → PrimFloat.ltb y x = false → PrimFloat.leb x y = true.
Proof.
  intros Hx%not_nan_spec Hy%not_nan_spec.
  rewrite FloatAxioms.ltb_spec, FloatAxioms.leb_spec.
  by apply SFleb_of_not_ltb.
Qed.

Lemma float_eqb_not_ltb (x y : float) :
  PrimFloat.eqb x y = true → PrimFloat.ltb x y = false.
Proof.
  rewrite FloatAxioms.eqb_spec, FloatAxioms.ltb_spec. unfold SFeqb, SFltb.
  by destruct (SFcompare (Prim2SF x) (Prim2SF y)) as [[]|].
Qed.

Section FloatRanking.
Variable arccos : float → float.

(** X6: on floats, when no distance is [nan], the ranking is ascending by
    [<=], and documents at equal distance stand in the order of their
    indices, which is the order of their identifiers. *)
Theorem float_ranking_ascending (data : corpus) (self : @SearchEngine float)
    (qhat ds : list float) :
  extractData data = Ok (se_urls self, se_tags self) →
  distances arccos self qhat ds →
  Forall not_nan ds →
  ∃ ranked,
    cos_distances arccos self qhat = Ok ranked
    ∧ ranked ≡ₚ zip (seq 0 (length (se_urls self))) ds
    ∧ StronglySorted
        (λ a b, PrimFloat.leb a.2 b.2 = true
                ∧ (PrimFloat.eqb a.2 b.2 = true →
                   a.1 < b.1 ∧ str_lt (url_at self a.1) (url_at self b.1)))
        ranked.
Proof.
  intros Hex Hds Hnn.
  destruct (extractData_spec data) as (urls&tags&Hex'&Hsu&_).
  rewrite Hex in Hex'. injection Hex' as <- <-.
  destruct (cos_distances_spec arccos self qhat ds Hds) as (ranked&Hr&Hp&Hs).
  exists ranked. repeat (split; [done|]).
  specialize (Hs (float_key_order ds Hnn) Hsu).
  assert (Hin : Forall (λ a : nat * float, not_nan a.2) ranked).
  { apply Forall_forall. intros a Ha. rewrite Forall_forall in Hnn.
    apply Hnn. rewrite Hp in Ha.
    apply (list_elem_of_fmap_2 snd) in Ha.
    rewrite snd_zip in Ha; [done|].
    rewrite length_seq. apply Forall2_length in Hds.
    rewrite length_seq in Hds. lia. }
  clear Hr Hp. induction Hs as [|a l Hl IH Ha]; constructor.
  - apply IH. by inversion Hin.
  - inversion_clear Hin as [|?? Hna Hnl].
    rewrite Forall_forall in Ha, Hnl. apply Forall_forall.
    intros b Hb. destruct (Ha b Hb) as [Hba Htie]. split.
    + apply float_leb_of_not_ltb; [done|by apply Hnl|done].
    + intros Heq. apply Htie. by apply float_eqb_not_ltb.
Qed.

End FloatRanking.

(** ** What [__init__] raises, and searching a built engine *)

Lemma extractData_length (data : corpus) (urls tags : list string) :
  extractData data = Ok (urls, tags) → length urls = size data.
Proof.
  unfold extractData. intros [= <- _]. unfold sorted_strings.
  rewrite (merge_sort_Permutation str_le), length_map.
  apply length_map_to_list.
Qed.

Section Init.
Context {F : Type} `{Scalar F}.
Variable svd : matrix F → result (matrix F * list F * matrix F).
Variable inv : matrix F → result (matrix F).

(** The steps of [__init__] before the decomposition never fail. *)
Lemma SearchEngine_init_steps (data : corpus) (k n : Z) :
  ∃ urls tags (A' : matrix F),
    extractData data = Ok (urls, tags)
    ∧ StronglySorted str_lt urls ∧ StronglySorted str_lt tags
    ∧ (∀ id, id ∈ urls ↔ is_Some (data !! id))
    ∧ length urls = size data
    ∧ normalized_matrix data = Ok A'
    ∧ shape A' = (length tags, length urls)
    ∧ SearchEngine_init svd inv data k n
      = ('(U, Sm, Vt) ← truncatedSVD svd A' k;
         Si ← inv Sm;
         Ok {| se_urls := urls; se_tags := tags; se_no_tags := length tags;
               se_U := U; se_S := Sm; se_Vt := Vt; se_Ut := transpose U;
               se_Si := Si; se_no_svd_components := k;
               se_no_results := n |}).
Proof.
  destruct (extractData_spec data) as (urls&tags&Hex&Hsu&Hu&Hst&_).
  destruct (generateCounts_spec (F := F) data urls tags Hex)
    as (A&HA&HA0&HA1&_).
  destruct (normalize_some_columns (seq 0 (shape1 A)) A (NoDup_seq _ _))
    as (HA0'&HA1'&_).
  exists urls, tags, (foldl normalize_column A (seq 0 (shape1 A))).
  repeat (split; [done|]). split; [by eapply extractData_length|].
  split; [|split].
  - unfold normalized_matrix, build_matrix. by rewrite Hex, !bind_Ok, HA.
  - unfold shape. congruence.
  - unfold SearchEngine_init. by rewrite Hex, !bind_Ok, HA.
Qed.


Variable arccos : F → F.

(** What [__init__] establishes, for [search]. *)
Lemma built_engine (data : corpus) (k n : Z) (self : @SearchEngine F) :
  svd_shapes svd → inv_shapes inv →
  SearchEngine_init svd inv data k n = Ok self →
  well_shaped self
  ∧ se_no_tags self = length (se_tags self)
  ∧ StronglySorted str_lt (se_urls self)
  ∧ StronglySorted str_lt (se_tags self)
  ∧ (∀ id, id ∈ se_urls self ↔ is_Some (data !! id))
  ∧ length (se_urls self) = size data
  ∧ se_no_results self = n.
Proof.
  intros Hsvd Hinv.
  destruct (SearchEngine_init_steps data k n)
    as (urls&tags&A'&Hex&Hsu&Hst&Hu&Hsz&HA'&Hs&->).
  injection Hs as HA0 HA1.
  unfold truncatedSVD.
  destruct (svd A') as [[[U sv] Vt]|e] eqn:Hs; [|done]. rewrite bind_Ok.
  destruct (Hsvd A' U sv Vt Hs) as (HU&Hsv&HVt).
  destruct (diag_of_spec sv _ _ Hsv) as (Sm&->&HSs&_). rewrite !bind_Ok.
  destruct (inv (block_to k Sm)) as [Si|e] eqn:Hi; [|done]. rewrite bind_Ok.
  intros [= <-]. simpl.
  injection HU as HU0 HU1. injection HVt as HV0 HV1.
  injection HSs as HS0 HS1.
  destruct (Hinv _ Si Hi) as [Hsq HSi]. injection HSi as HSi0 HSi1.
  simpl in *. repeat (split; [|done]).
  unfold well_shaped. simpl. repeat split; congruence.
Qed.

Lemma search_on_built_engine (data : corpus) (k n : Z)
    (self : @SearchEngine F) (key_words : list string) :
  svd_shapes svd → inv_shapes inv →
  SearchEngine_init svd inv data k n = Ok self →
  ∃ out,
    search arccos self key_words = Ok out
    ∧ length out = slice_len n (size data)
    ∧ NoDup out
    ∧ ∀ id, id ∈ out → is_Some (data !! id).
Proof.
  intros Hsvd Hinv Hinit.
  destruct (built_engine data k n self Hsvd Hinv Hinit)
    as (Hws&Hn&Hsu&Hst&Hu&Hsz&<-).
  destruct (build_query_vector_indicator self key_words Hn)
    as (q&Hq&Hlen&_); [by apply strictly_sorted_NoDup|].
  destruct (projection_total self q Hws Hlen) as (t&_&Ht&Hp).
  destruct (distances_total arccos self (vdiv t (norm t)) Hws) as [ds Hds].
  { unfold vdiv. by rewrite length_map. }
  destruct (nearest_urls_spec arccos self _ ds None Hds)
    as (ranked&_&Hperm&_&Hout).
  destruct (ranked_length arccos self _ ds ranked Hds Hperm) as [_ Hfst].
  pose proof (strictly_sorted_NoDup _ Hsu) as Hnd.
  destruct (ranked_urls self ranked (se_no_results self) Hnd Hfst)
    as (Hl&Hnd'&Hsub&_).
  eexists. unfold search. rewrite Hq, bind_Ok, Hp, bind_Ok.
  split; [exact Hout|]. simpl. split; [|split; [done|]].
  - by rewrite Hl, Hsz.
  - intros id Hid. apply Hu, Hsub, Hid.
Qed.

(** X10: an engine that [__init__] built answers every query: for any
    key words [search] returns, without raising, as many identifiers as
    Python's slice [[:n]] takes of a list of all the documents, all
    distinct, and each one a key of the corpus. *)
Theorem search_built_engine (data : corpus) (k n : Z) (self : @SearchEngine F)
    (key_words : list string) :
  svd_shapes svd → inv_shapes inv →
  SearchEngine_init svd inv data k n = Ok self →
  ∃ out,
    search arccos self key_words = Ok out
    ∧ length out = slice_len n (size data)
    ∧ NoDup out
    ∧ ∀ id, id ∈ out → is_Some (data !! id).
Proof. apply search_on_built_engine. Qed.

End Init.

(** ** The key words as a set *)

Section QuerySet.
Context {F : Type} `{Scalar F}.

Lemma list_index_dec (key : string) (tags : list string) (i : nat) :
  Decision (list_index key tags = Ok i).
Proof.
  destruct (list_index key tags) as [j|e].
  - destruct (decide (j = i)) as [->|Hne]; [by left|right; congruence].
  - by right.
Qed.

(** Entry [i] of the query vector is one exactly when a key word has
    vocabulary index [i]. *)
Lemma build_query_vector_entry (self : @SearchEngine F)
    (key_words : list string) :
  ∃ q, build_query_vector self key_words = Ok q
    ∧ length q = se_no_tags self
    ∧ ∀ i, i < se_no_tags self →
        (Exists (λ key, list_index key (se_tags self) = Ok i) key_words →
         q !! i = Some s_one)
        ∧ (¬ Exists (λ key, list_index key (se_tags self) = Ok i) key_words →
           q !! i = Some s_zero).
Proof.
  eexists. split; [reflexivity|].
  induction key_words as [|key kws [Hlen IH]] using rev_ind.
  - split; [apply length_zeros|]. intros i Hi. split.
    + intros Hex. by apply Exists_nil in Hex.
    + intros _. by apply lookup_replicate_2.
  - rewrite foldl_app. cbn [foldl].
    destruct (list_index key (se_tags self)) as [r|e] eqn:Hr.
    + split; [by rewrite length_insert|]. intros i Hi.
      destruct (IH i Hi) as [IH1 IH0].
      destruct (decide (i = r)) as [->|Hne].
      * rewrite list_lookup_insert_eq by lia. split; [done|].
        intros Hnex. destruct Hnex. apply Exists_app. right. by left.
      * rewrite list_lookup_insert_ne by done. split.
        -- intros [Hex|Hex]%Exists_app; [by apply IH1|].
           apply Exists_cons in Hex as [Hex|Hex]; [congruence|].
           by apply Exists_nil in Hex.
        -- intros Hnex. apply IH0. intros Hex. apply Hnex.
           apply Exists_app. by left.
    + split; [done|]. intros i Hi. destruct (IH i Hi) as [IH1 IH0]. split.
      * intros [Hex|Hex]%Exists_app; [by apply IH1|].
        apply Exists_cons in Hex as [Hex|Hex]; [congruence|].
        by apply Exists_nil in Hex.
      * intros Hnex. apply IH0. intros Hex. apply Hnex.
        apply Exists_app. by left.
Qed.

Lemma build_query_vector_same_set (self : @SearchEngine F)
    (kws1 kws2 : list string) :
  (∀ key, key ∈ kws1 ↔ key ∈ kws2) →
  build_query_vector self kws1 = build_query_vector self kws2.
Proof.
  intros Hset.
  destruct (build_query_vector_entry self kws1) as (q1&->&Hl1&He1).
  destruct (build_query_vector_entry self kws2) as (q2&->&Hl2&He2).
  f_equal. apply list_eq. intros i.
  destruct (decide (i < se_no_tags self)) as [Hi|Hi].
  - destruct (He1 i Hi) as [H11 H10]. destruct (He2 i Hi) as [H21 H20].
    assert (Hiff : Exists (λ key, list_index key (se_tags self) = Ok i) kws1
                   ↔ Exists (λ key, list_index key (se_tags self) = Ok i) kws2).
    { rewrite !Exists_exists. split; intros (key&Hin&Hk); exists key;
        (split; [by apply Hset|done]). }
    destruct (@Exists_dec _ (λ key, list_index key (se_tags self) = Ok i)
                (λ key, list_index_dec key (se_tags self) i) kws1) as [Hex|Hnex].
    + rewrite H11, H21; [done|by apply Hiff|done].
    + rewrite H10, H20; [done| |done]. intros Hex. by apply Hnex, Hiff.
  - rewrite !lookup_ge_None_2; [done|lia..].
Qed.

Variable arccos : F → F.

(** X11: the query vector, and with it the result of [search], depends only on
    which key words are given: not on their order, and not on how often
    one is repeated. *)
Theorem search_same_key_words (self : @SearchEngine F)
    (kws1 kws2 : list string) :
  (∀ key, key ∈ kws1 ↔ key ∈ kws2) →
  build_query_vector self kws1 = build_query_vector self kws2
  ∧ search arccos self kws1 = search arccos self kws2.
Proof.
  intros Hset. pose proof (build_query_vector_same_set self kws1 kws2 Hset) as Hq.
  split; [done|]. unfold search. by rewrite Hq.
Qed.

End QuerySet.

(** ** The errors of [generateCounts] *)

Lemma foldM_app {A B : Type} (f : B → A → result B) (b : B) (l1 l2 : list A) :
  foldM f b (l1 ++ l2) = (b' ← foldM f b l1; foldM f b' l2).
Proof.
  revert b. induction l1 as [|x l1 IH]; intros b; simpl; [done|].
  destruct (f b x) as [b'|e]; simpl; [apply IH|done].
Qed.

Section CountErrors.
Context {F : Type} `{Scalar F}.




End CountErrors.

(** ** Repeated terms, and the dimensions [nearest_urls] needs *)


Section LastCount.
Context {F : Type} `{Scalar F}.


End LastCount.

Section RankerErrors.
Context {F : Type} `{Scalar F}.
Variable arccos : F → F.

Lemma distance_of_defined (self : @SearchEngine F) (qhat : list F) (i : nat) :
  distance_of arccos self qhat i
  = if i <? shape1 (se_Vt self)
    then if length qhat =? shape0 (se_Vt self)
         then Ok (arccos (s_div (sum_prod qhat (column (se_Vt self) i))
                                (s_mul (norm qhat)
                                       (norm (column (se_Vt self) i)))))
         else Raise ValueError
    else Raise IndexError.
Proof.
  unfold distance_of, get_column.
  destruct (i <? shape1 (se_Vt self)); [|done]. rewrite bind_Ok.
  unfold cosDist, cosDist_arg, dot.
  assert (length (column (se_Vt self) i) = shape0 (se_Vt self)) as ->.
  { unfold column. by rewrite length_map, length_seq. }
  by destruct (length qhat =? shape0 (se_Vt self)).
Qed.

Lemma cos_distances_step (self : @SearchEngine F) (qhat : list F)
    (acc : list (nat * F)) (i : nat) (l : list nat) (e : exn) :
  distance_of arccos self qhat i = Raise e →
  foldM (λ cos_distances i,
           p ← get_column (se_Vt self) i;
           d ← cosDist arccos p qhat;
           Ok (sort_by_key (cos_distances ++ [(i, d)])))
        acc (i :: l) = Raise e.
Proof.
  unfold distance_of. intros Hd. simpl.
  destruct (get_column (se_Vt self) i) as [p|e']; simpl in *.
  - by rewrite Hd.
  - congruence.
Qed.

(** X14: the dimensions [nearest_urls] needs.  With no document it returns
    the empty list.  With a document, it raises [ValueError] when [Vt] has
    a column and the projected query has not the length of the columns of
    [Vt], and [IndexError] when [Vt] has no column.  When the query has
    that length, it raises [IndexError] if [Vt] has fewer columns than
    there are documents, and otherwise returns a list of the length
    Python gives the slice. *)
Theorem nearest_urls_dimensions (self : @SearchEngine F) (qhat : list F)
    (no_results : option Z) :
  let d := length (se_urls self) in
  let run := nearest_urls arccos self qhat no_results in
  (d = 0 → run = Ok [])
  ∧ (0 < d → 0 < shape1 (se_Vt self) →
     length qhat ≠ shape0 (se_Vt self) → run = Raise ValueError)
  ∧ (0 < d → shape1 (se_Vt self) = 0 → run = Raise IndexError)
  ∧ (length qhat = shape0 (se_Vt self) → shape1 (se_Vt self) < d →
     run = Raise IndexError)
  ∧ (length qhat = shape0 (se_Vt self) → d ≤ shape1 (se_Vt self) →
     ∃ out, run = Ok out
            ∧ length out = slice_len (effective_count self no_results) d).
Proof.
  intros d run. unfold run, nearest_urls, cos_distances. fold d.
  split; [|split; [|split; [|split]]].
  - intros ->. simpl. unfold slice_to. by rewrite take_nil.
  - intros Hd Hc Hq. destruct d as [|d']; [lia|]. cbn [seq].
    rewrite (cos_distances_step self qhat [] 0 _ ValueError); [done|].
    rewrite distance_of_defined.
    destruct (Nat.ltb_spec 0 (shape1 (se_Vt self))); [|lia].
    by destruct (Nat.eqb_spec (length qhat) (shape0 (se_Vt self))).
  - intros Hd Hc. destruct d as [|d']; [lia|]. cbn [seq].
    rewrite (cos_distances_step self qhat [] 0 _ IndexError); [done|].
    rewrite distance_of_defined, Hc. done.
  - intros Hq Hc.
    set (s := shape1 (se_Vt self)) in *.
    replace d with (s + S (d - S s)) by lia.
    rewrite seq_app, foldM_app. cbn [seq].
    assert (Hfirst : ∃ ds, Forall2 (λ i x, distance_of arccos self qhat i = Ok x)
                             (seq 0 s) ds).
    { assert (Hall : ∀ i, i ∈ seq 0 s → ∃ x, distance_of arccos self qhat i = Ok x).
      { intros i Hi%elem_of_seq. rewrite distance_of_defined.
        destruct (Nat.ltb_spec i (shape1 (se_Vt self))); [|unfold s in *; lia].
        rewrite Hq, Nat.eqb_refl. by eexists. }
      induction (seq 0 s) as [|i l IH]; [by exists []|].
      destruct (Hall i) as [x Hx]; [left|].
      destruct IH as [ds Hds]; [intros j Hj; apply Hall; by right|].
      exists (x :: ds). by constructor. }
    destruct Hfirst as [ds Hds].
    rewrite (cos_distances_loop arccos self qhat _ ds [] Hds), bind_Ok.
    rewrite (cos_distances_step self qhat _ _ _ IndexError); [done|].
    rewrite distance_of_defined.
    destruct (Nat.ltb_spec (0 + s) (shape1 (se_Vt self))); [unfold s in *; lia|done].
  - intros Hq Hc.
    assert (Hall : ∃ ds, distances arccos self qhat ds).
    { unfold distances. fold d.
      assert (Hall : ∀ i, i ∈ seq 0 d → ∃ x, distance_of arccos self qhat i = Ok x).
      { intros i Hi%elem_of_seq. rewrite distance_of_defined.
        destruct (Nat.ltb_spec i (shape1 (se_Vt self))); [|lia].
        rewrite Hq, Nat.eqb_refl. by eexists. }
      induction (seq 0 d) as [|i l IH]; [by exists []|].
      destruct (Hall i) as [x Hx]; [left|].
      destruct IH as [ds Hds]; [intros j Hj; apply Hall; by right|].
      exists (x :: ds). by constructor. }
    destruct Hall as [ds Hds].
    destruct (nearest_urls_spec arccos self qhat ds no_results Hds)
      as (ranked&Hr&Hp&_&Hout).
    destruct (ranked_length arccos self qhat ds ranked Hds Hp) as [Hlen _].
    unfold nearest_urls, cos_distances in Hout. fold d in Hout.
    eexists. split; [exact Hout|].
    unfold slice_to. rewrite length_map, length_take, Hlen. fold d.
    unfold slice_len. destruct (0 <=? effective_count self no_results)%Z; lia.
Qed.

(** X15: a longer result list extends a shorter one: the first [N1] results of
    a search for [N2 >= N1 >= 1] results are the results of a search for
    [N1]. *)
Theorem nearest_urls_prefix (self : @SearchEngine F) (qhat ds : list F)
    (N1 N2 : Z) :
  distances arccos self qhat ds →
  (1 ≤ N1 ≤ N2)%Z →
  ∃ out1 out2,
    nearest_urls arccos self qhat (Some N1) = Ok out1
    ∧ nearest_urls arccos self qhat (Some N2) = Ok out2
    ∧ out1 = take (Z.to_nat N1) out2.
Proof.
  intros Hds HN.
  destruct (nearest_urls_spec arccos self qhat ds (Some N1) Hds)
    as (ranked&Hr&_&_&Hout1).
  destruct (nearest_urls_spec arccos self qhat ds (Some N2) Hds)
    as (ranked'&Hr'&_&_&Hout2).
  rewrite Hr in Hr'. injection Hr' as <-.
  assert (effective_count self (Some N1) = N1) as HeN1 by (destruct N1; [lia|done|lia]).
  assert (effective_count self (Some N2) = N2) as HeN2 by (destruct N2; [lia|done|lia]).
  rewrite HeN1 in Hout1. rewrite HeN2 in Hout2.
  eexists _, _. split; [exact Hout1|]. split; [exact Hout2|].
  unfold slice_to, slice_len.
  destruct (Z.leb_spec 0 N1); [|lia]. destruct (Z.leb_spec 0 N2); [|lia].
  change (map ?f ?l) with (f <$> l).
  rewrite <- fmap_take. f_equal.
  rewrite take_take. f_equal. lia.
Qed.

End RankerErrors.

(** ** Exact arithmetic: directions and proportions *)

Section ExactDirections.
Local Open Scope R_scope.

Lemma sum_prod_nil_l (q : list R) : sum_prod [] q = 0.
Proof. reflexivity. Qed.

Lemma sum_prod_nil_r (p : list R) : sum_prod p [] = 0.
Proof. by destruct p. Qed.

Lemma sum_prod_scale (a b : R) (p q : list R) :
  sum_prod (map (Rmult a) p) (map (Rmult b) q) = a * b * sum_prod p q.
Proof.
  revert q. induction p as [|x p IH]; intros [|y q].
  - simpl. rewrite !sum_prod_nil_l. lra.
  - simpl. rewrite !sum_prod_nil_l. lra.
  - simpl. rewrite !sum_prod_nil_r. lra.
  - cbn [map]. rewrite !sum_prod_cons, IH. lra.
Qed.

Lemma norm_scale (a : R) (p : list R) :
  0 < a → norm (map (Rmult a) p) = a * norm p.
Proof.
  intros Ha. unfold norm. simpl. rewrite sum_prod_scale.
  rewrite Rmult_assoc, sqrt_mult_alt by lra.
  rewrite sqrt_mult_alt by lra.
  rewrite <- Rmult_assoc, sqrt_sqrt by lra. done.
Qed.

Lemma norm_sqr (p : list R) : norm p * norm p = sum_prod p p.
Proof. unfold norm. simpl. apply sqrt_sqrt, sum_prod_self_nonneg. Qed.

(** X16: in exact arithmetic [cosDist] sees only the directions of its
    arguments: a positive factor on either vector changes nothing, and a
    vector and a positive multiple of it have the quotient 1. *)
Theorem cosDist_exact_directions (arccos : R → R) (p q : list R) (a b : R) :
  0 < a → 0 < b → norm p ≠ 0 → norm q ≠ 0 →
  cosDist arccos (map (Rmult a) p) (map (Rmult b) q) = cosDist arccos p q
  ∧ cosDist_arg (map (Rmult a) p) p = Ok 1.
Proof.
  intros Ha Hb Hp Hq. split.
  - unfold cosDist, cosDist_arg, dot. rewrite !length_map.
    destruct (length q =? length p); [|done]. rewrite !bind_Ok.
    rewrite sum_prod_scale, !norm_scale by done.
    do 2 f_equal.
    change (b * a * sum_prod q p / (b * norm q * (a * norm p))
            = sum_prod q p / (norm q * norm p)).
    field. repeat split; first [assumption | lra].
  - unfold cosDist_arg, dot. rewrite length_map, Nat.eqb_refl, bind_Ok.
    rewrite norm_scale by done.
    rewrite <- (map_id p) at 1.
    rewrite <- (map_ext (Rmult 1) id) by (intros; unfold id; lra).
    rewrite sum_prod_scale, <- norm_sqr. f_equal.
    change (1 * a * (norm p * norm p) / (norm p * (a * norm p)) = 1).
    field. repeat split; first [assumption | lra].
Qed.

Lemma normalize_columns_column (arr : matrix R) (j : nat) :
  (j < shape1 arr)%nat →
  ∃ arr', normalize_columns arr = Ok arr'
    ∧ shape arr' = shape arr
    ∧ (∀ i, elt arr' i j = elt arr i j / norm (column arr j))
    ∧ column arr' j = vdiv (column arr j) (norm (column arr j)).
Proof.
  intros Hj. eexists. split; [reflexivity|].
  destruct (normalize_some_columns (seq 0 (shape1 arr)) arr (NoDup_seq _ _))
    as (Hs0&Hs1&He).
  set (arr' := foldl normalize_column arr (seq 0 (shape1 arr))) in *.
  assert (Hent : ∀ i, elt arr' i j = elt arr i j / norm (column arr j)).
  { intros i. rewrite He. rewrite decide_True; [done|].
    apply elem_of_seq. lia. }
  split; [unfold shape; congruence|]. split; [done|].
  unfold column, vdiv. rewrite Hs0, map_map. apply map_ext.
  intros i. apply Hent.
Qed.

(** X17: in exact arithmetic normalising twice gives what normalising once
    gives, in every column of non-zero norm. *)
Theorem normalize_columns_idempotent (arr : matrix R) (j : nat) :
  (j < shape1 arr)%nat → norm (column arr j) ≠ 0 →
  ∃ arr' arr'',
    normalize_columns arr = Ok arr'
    ∧ normalize_columns arr' = Ok arr''
    ∧ ∀ i, elt arr'' i j = elt arr' i j.
Proof.
  intros Hj Hn.
  destruct (normalize_columns_column arr j Hj) as (arr'&Harr'&Hs&_&Hcol).
  injection Hs as Hs0 Hs1.
  destruct (normalize_columns_column arr' j) as (arr''&Harr''&_&Hent&_); [lia|].
  exists arr', arr''. repeat (split; [done|]). intros i.
  rewrite Hent, Hcol, norm_vdiv by done. lra.
Qed.

(** X18: in exact arithmetic the normalised column of a document depends only
    on the proportions of its counts: a column that is a positive multiple
    of another has the same normalised entries. *)
Theorem normalize_columns_scale (arr1 arr2 : matrix R) (j : nat) (c : R) :
  shape0 arr1 = shape0 arr2 →
  (j < shape1 arr1)%nat → (j < shape1 arr2)%nat →
  0 < c → norm (column arr1 j) ≠ 0 →
  (∀ i, (i < shape0 arr1)%nat → elt arr2 i j = c * elt arr1 i j) →
  ∃ arr1' arr2',
    normalize_columns arr1 = Ok arr1'
    ∧ normalize_columns arr2 = Ok arr2'
    ∧ ∀ i, (i < shape0 arr1)%nat → elt arr2' i j = elt arr1' i j.
Proof.
  intros Hs Hj1 Hj2 Hc Hn Hmul.
  destruct (normalize_columns_column arr1 j Hj1) as (arr1'&Harr1&_&Hent1&_).
  destruct (normalize_columns_column arr2 j Hj2) as (arr2'&Harr2&_&Hent2&_).
  exists arr1', arr2'. repeat (split; [done|]). intros i Hi.
  rewrite Hent1, Hent2, Hmul by done.
  assert (column arr2 j = map (Rmult c) (column arr1 j)) as ->.
  { unfold column. rewrite <- Hs, map_map. apply map_ext_in.
    intros i' Hi'%in_seq. apply Hmul. lia. }
  rewrite norm_scale by done. field. repeat split; first [assumption | lra].
Qed.

End ExactDirections.

(** ** The main block *)

Section CommandLineFacts.
Variable int : string → result Z.

Ltac flags :=
  repeat match goal with
    | H : _ ∈ _ :: _ |- _ => apply elem_of_cons in H as [H|H]
    | H : _ ∈ [] |- _ => by apply elem_of_nil in H
    end.

Lemma numeric_flags (opt : string) :
  numeric opt ↔ opt ∈ ["-n"; "--numcmp"]%string ∨ opt ∈ ["-m"; "--numres"]%string.
Proof. unfold numeric. rewrite !elem_of_cons, !elem_of_nil. tauto. Qed.

Lemma numeric_not_input (opt : string) :
  numeric opt → opt ∉ ["-f"; "--input"]%string.
Proof. unfold numeric. intros Hn Hf. flags; congruence. Qed.

Lemma set_option_raises (st : settings) (opt arg : string) (e : exn) :
  set_option int st (opt, arg) = Raise e → numeric opt ∧ int arg = Raise e.
Proof.
  unfold set_option. rewrite numeric_flags.
  destruct (bool_decide_reflect (opt ∈ ["-f"; "--input"]%string)); [done|].
  destruct (bool_decide_reflect (opt ∈ ["-n"; "--numcmp"]%string)) as [Hn|_].
  { destruct (int arg); [done|]. simpl. intros [= ->]. by split; [left|]. }
  destruct (bool_decide_reflect (opt ∈ ["-m"; "--numres"]%string)) as [Hm|_];
    [|done].
  destruct (int arg); [done|]. simpl. intros [= ->]. by split; [right|].
Qed.

Lemma set_option_numeric (st : settings) (opt arg : string) (e : exn) :
  numeric opt → int arg = Raise e → set_option int st (opt, arg) = Raise e.
Proof.
  intros Hn He. unfold set_option.
  rewrite (bool_decide_eq_false_2 _ (numeric_not_input opt Hn)).
  apply numeric_flags in Hn.
  destruct (bool_decide_reflect (opt ∈ ["-n"; "--numcmp"]%string)) as [|Hn'].
  { by rewrite He. }
  destruct Hn as [?|Hm]; [done|].
  by rewrite (bool_decide_eq_true_2 _ Hm), He.
Qed.

Lemma read_options_raises (st : settings) (options : list (string * string)) :
  (∃ e, foldM (set_option int) st options = Raise e)
  ↔ Exists (λ option, numeric option.1 ∧ ∃ e, int option.2 = Raise e) options.
Proof.
  revert st. induction options as [|[opt arg] options IH]; intros st.
  - split; [by intros [e ?]|]. intros Hex. by apply Exists_nil in Hex.
  - rewrite Exists_cons. cbn [foldM fst snd].
    destruct (set_option int st (opt, arg)) as [st'|e] eqn:E.
    + rewrite bind_Ok, IH. split; [by right|].
      intros [[Hnum [e He]]|?]; [|done].
      by rewrite (set_option_numeric st opt arg e) in E.
    + split; [|by exists e]. intros _. left.
      apply set_option_raises in E as [? ?]. split; [done|]. by exists e.
Qed.

Lemma set_option_fields (st st' : settings) (opt arg : string) :
  set_option int st (opt, arg) = Ok st' →
  input st' = (if bool_decide (opt ∈ ["-f"; "--input"]%string)
               then arg else input st)
  ∧ (if bool_decide (opt ∈ ["-n"; "--numcmp"]%string)
     then int arg = Ok (numcmp st') else numcmp st' = numcmp st)
  ∧ (if bool_decide (opt ∈ ["-m"; "--numres"]%string)
     then int arg = Ok (numres st') else numres st' = numres st).
Proof.
  unfold set_option.
  destruct (bool_decide_reflect (opt ∈ ["-f"; "--input"]%string)) as [Hf|_].
  { intros [= <-]. simpl.
    rewrite !bool_decide_eq_false_2; [done|..]; intros Hn;
      apply (numeric_not_input opt); try done; apply numeric_flags; auto. }
  destruct (bool_decide_reflect (opt ∈ ["-n"; "--numcmp"]%string)) as [Hn|_].
  { destruct (int arg) as [n|]; [|done]. simpl. intros [= <-]. simpl.
    rewrite bool_decide_eq_false_2; [done|]. intros Hm. flags; congruence. }
  destruct (bool_decide_reflect (opt ∈ ["-m"; "--numres"]%string)) as [Hm|_].
  { destruct (int arg) as [n|]; [|done]. simpl. by intros [= <-]. }
  by intros [= <-].
Qed.

Lemma read_options_from (st0 : settings) (options : list (string * string)) :
  Forall (λ option, numeric option.1 → ∃ n, int option.2 = Ok n) options →
  ∃ st, foldM (set_option int) st0 options = Ok st
    ∧ input st = default (input st0) (last_arg ["-f"; "--input"]%string options)
    ∧ match last_arg ["-n"; "--numcmp"]%string options with
      | Some arg => int arg = Ok (numcmp st)
      | None => numcmp st = numcmp st0
      end
    ∧ match last_arg ["-m"; "--numres"]%string options with
      | Some arg => int arg = Ok (numres st)
      | None => numres st = numres st0
      end.
Proof.
  intros Hall. revert st0.
  induction Hall as [|[opt arg] options Hnum _ IH]; intros st0.
  - by exists st0.
  - cbn [foldM last_arg].
    destruct (set_option int st0 (opt, arg)) as [st1|e] eqn:E.
    2:{ apply set_option_raises in E as [Hn He].
        destruct (Hnum Hn) as [n Hn']. simpl in Hn'. congruence. }
    rewrite bind_Ok. destruct (IH st1) as (st&->&Hi&Hc&Hr).
    apply set_option_fields in E as (Ei&Ec&Er).
    exists st. split; [done|]. split; [|split].
    + rewrite Hi. destruct (last_arg _ options); [done|]. simpl.
      rewrite Ei. by destruct (bool_decide _).
    + destruct (last_arg ["-n"; "--numcmp"]%string options); [done|].
      destruct (bool_decide (opt ∈ ["-n"; "--numcmp"]%string)); congruence.
    + destruct (last_arg ["-m"; "--numres"]%string options); [done|].
      destruct (bool_decide (opt ∈ ["-m"; "--numres"]%string)); congruence.
Qed.

End CommandLineFacts.

Section CommandLineTheorems.
Variable int : string → result Z.
Variable loadData : string → result corpus.
Variable arccos : float → float.
Variable svd : matrix float → result (matrix float * list float * matrix float).
Variable inv : matrix float → result (matrix float).

(** X19: the main block prints the usage line, and nothing else, and exits with
    status 2 exactly when the argument of some [-n], [--numcmp], [-m] or
    [--numres] option is not a number that [int] reads; the data file has
    not been opened then. *)
Theorem main_usage_exit (options : list (string * string))
    (keywords : list string) :
  main int loadData arccos svd inv options keywords = ([usage], SystemExit 2)
  ↔ Exists (λ option, numeric option.1 ∧ ∃ e, int option.2 = Raise e) options.
Proof.
  rewrite <- (read_options_raises int (Settings INPUT NUM_COMPONENTS NUM_RESULTS)).
  unfold main, read_options.
  destruct (foldM (set_option int) _ options) as [st|e].
  - split; [|by intros [e ?]].
    destruct keywords as [|key keywords];
      destruct (SearchEngine_new _ _ _ _ _ _ ≫= _); simpl; by intros [= ].
  - split; [by exists e|done].
Qed.

(** X20: when every numeric argument is a number, the options are read to the
    end, the last option of a kind wins, and a kind that is not given
    keeps its default. *)
Theorem read_options_last_wins (options : list (string * string)) :
  Forall (λ option, numeric option.1 → ∃ n, int option.2 = Ok n) options →
  ∃ st, read_options int options = Ok st
    ∧ input st = default INPUT (last_arg ["-f"; "--input"]%string options)
    ∧ match last_arg ["-n"; "--numcmp"]%string options with
      | Some arg => int arg = Ok (numcmp st)
      | None => numcmp st = NUM_COMPONENTS
      end
    ∧ match last_arg ["-m"; "--numres"]%string options with
      | Some arg => int arg = Ok (numres st)
      | None => numres st = NUM_RESULTS
      end.
Proof. apply read_options_from. Qed.

(** X21: a run that reads its options, loads its data and builds its engine
    completes: it prints the notice about defaults when no key word was
    given (and searches for "australia"), the headline, and one string with
    the result identifiers, which are distinct documents of the corpus. *)
Theorem main_completes (options : list (string * string))
    (keywords : list string) (st : settings) (data : corpus)
    (engine : @SearchEngine float) :
  svd_shapes svd → inv_shapes inv →
  read_options int options = Ok st →
  loadData (input st) = Ok data →
  SearchEngine_init svd inv data (numcmp st) (numres st) = Ok engine →
  let notice := match keywords with
                | [] => ["No search keywords were given.  Using defaults."
                         +:+ newline +:+ newline]
                | _ => []
                end in
  let keywords' := match keywords with
                   | [] => ["australia"%string]
                   | _ => keywords
                   end in
  ∃ results,
    search arccos engine keywords' = Ok results
    ∧ length results = slice_len (numres st) (size data)
    ∧ NoDup results
    ∧ (∀ id, id ∈ results → is_Some (data !! id))
    ∧ main int loadData arccos svd inv options keywords
      = (notice
         ++ ["Results for search on keyword"
             +:+ (if 1 <? length keywords' then "s" else "")
             +:+ ": " +:+ String.concat ", " keywords';
             tab +:+ String.concat (newline +:+ tab) results],
         Completed).
Proof.
  intros Hsvd Hinv Hopt Hload Hinit notice keywords'.
  destruct (search_on_built_engine svd inv arccos data _ _ engine keywords'
              Hsvd Hinv Hinit) as (results&Hs&Hlen&Hnd&Hin).
  exists results. repeat (split; [done|]).
  unfold main. rewrite Hopt. unfold SearchEngine_new.
  destruct keywords as [|key keywords]; subst notice keywords';
    cbv zeta iota beta; rewrite Hload; cbn [mbind result_bind];
    rewrite Hinit; cbn [mbind result_bind]; rewrite Hs.
  - done.
  - by rewrite <- app_assoc.
Qed.

End CommandLineTheorems.

(** ** The properties on the examples *)

Lemma cos_distances_single_sort_witness :
  ∃ self,
    engine3 3 5 = Ok self
    ∧ cos_distances arccos_ref self qhat_cat
      = Ok (sort_by_key (zip (seq 0 (length (se_urls self))) ds_cat)).
Proof.
  eexists. split; [vm_compute; reflexivity|].
  apply (cos_distances_single_sort arccos_ref).
  - repeat (constructor; [vm_compute; reflexivity|]). constructor.
  - apply float_key_order. by repeat constructor.
Defined.

Lemma nearest_urls_ties_index_order_witness :
  ∃ self,
    engine3 3 5 = Ok self
    ∧ cos_distances arccos_ref self qhat_nan
      = Ok (zip (seq 0 (length (se_urls self))) ds_nan)
    ∧ nearest_urls arccos_ref self qhat_nan None
      = Ok (slice_to (effective_count self None) (se_urls self)).
Proof.
  eexists. split; [vm_compute; reflexivity|].
  apply (nearest_urls_ties_index_order arccos_ref).
  - repeat (constructor; [vm_compute; reflexivity|]). constructor.
  - intros x y Hx Hy. unfold ds_nan in Hx, Hy.
    repeat (apply elem_of_cons in Hx as [->|Hx]);
      try (by apply elem_of_nil in Hx);
      repeat (apply elem_of_cons in Hy as [->|Hy]);
      try (by apply elem_of_nil in Hy); reflexivity.
Defined.

Lemma unknown_query_index_order_witness :
  ∃ self : @SearchEngine float,
    engine3 3 5 = Ok self
    ∧ search arccos_ref self ["zebra"%string]
      = Ok (slice_to (se_no_results self) (se_urls self)).
Proof.
  eexists. split; [vm_compute; reflexivity|].
  apply (unknown_query_index_order arccos_ref).
  - repeat split.
  - intros i j Hi Hj. simpl in *.
    destruct i as [|[|[|i]]]; [..|lia];
      (destruct j as [|[|[|j]]]; [..|lia]); reflexivity.
  - intros i j Hi Hj. simpl in *.
    destruct i as [|[|[|i]]]; [..|lia];
      (destruct j as [|[|[|j]]]; [..|lia]); reflexivity.
  - intros key ->%list_elem_of_singleton. vm_compute.
    intros Hin. repeat (apply elem_of_cons in Hin as [[=]|Hin]).
    by apply elem_of_nil in Hin.
Defined.

Lemma float_ranking_ascending_witness :
  ∃ self,
    engine3 3 5 = Ok self
    ∧ ∃ ranked,
        cos_distances arccos_ref self qhat_cat = Ok ranked
        ∧ ranked ≡ₚ zip (seq 0 (length (se_urls self))) ds_cat
        ∧ StronglySorted
            (λ a b, PrimFloat.leb a.2 b.2 = true
                    ∧ (PrimFloat.eqb a.2 b.2 = true →
                       a.1 < b.1 ∧ str_lt (url_at self a.1) (url_at self b.1)))
            ranked.
Proof.
  eexists. split; [vm_compute; reflexivity|].
  apply (float_ranking_ascending arccos_ref corpus3).
  - vm_compute. reflexivity.
  - repeat (constructor; [vm_compute; reflexivity|]). constructor.
  - by repeat constructor.
Defined.


Lemma search_built_engine_witness :
  ∃ self,
    engine3 2 5 = Ok self
    ∧ ∃ out,
        search arccos_ref self ["cat"%string] = Ok out
        ∧ length out = slice_len 5 (size corpus3)
        ∧ NoDup out
        ∧ ∀ id, id ∈ out → is_Some (corpus3 !! id).
Proof.
  eexists. split; [vm_compute; reflexivity|].
  apply (search_built_engine svd_diag inv_diag arccos_ref corpus3 2 5).
  - exact svd_diag_shapes.
  - exact inv_diag_shapes.
  - vm_compute. reflexivity.
Defined.

Lemma search_same_key_words_witness :
  build_query_vector engine3_exact ["cat"; "dog"]%string
  = build_query_vector engine3_exact ["dog"; "cat"; "cat"]%string
  ∧ search acos engine3_exact ["cat"; "dog"]%string
    = search acos engine3_exact ["dog"; "cat"; "cat"]%string.
Proof.
  apply (search_same_key_words acos engine3_exact).
  intros key. rewrite !elem_of_cons, !elem_of_nil. tauto.
Defined.


Lemma nearest_urls_prefix_witness :
  ∃ self,
    engine3 3 5 = Ok self
    ∧ ∃ out1 out2,
        nearest_urls arccos_ref self qhat_cat (Some 1%Z) = Ok out1
        ∧ nearest_urls arccos_ref self qhat_cat (Some 2%Z) = Ok out2
        ∧ out1 = take (Z.to_nat 1) out2.
Proof.
  eexists. split; [vm_compute; reflexivity|].
  apply (nearest_urls_prefix arccos_ref _ qhat_cat ds_cat 1 2).
  - repeat (constructor; [vm_compute; reflexivity|]). constructor.
  - lia.
Defined.

Lemma cosDist_exact_directions_witness :
  cosDist acos (map (Rmult 2) [1; 0]%R) (map (Rmult 3) [0; 1]%R)
  = cosDist acos [1; 0]%R [0; 1]%R
  ∧ cosDist_arg (map (Rmult 2) [1; 0]%R) [1; 0]%R = Ok 1%R.
Proof.
  apply (cosDist_exact_directions acos [1; 0]%R [0; 1]%R 2 3).
  - lra.
  - lra.
  - unfold norm, sum_prod. simpl.
    replace (0 + 1 * 1 + 0 * 0)%R with 1%R by lra. rewrite sqrt_1. lra.
  - unfold norm, sum_prod. simpl.
    replace (0 + 0 * 0 + 1 * 1)%R with 1%R by lra. rewrite sqrt_1. lra.
Defined.

Lemma normalize_columns_idempotent_witness :
  ∃ arr' arr'',
    normalize_columns (Matrix 2 1 (λ i _, if i =? 0 then 3 else 4)%R) = Ok arr'
    ∧ normalize_columns arr' = Ok arr''
    ∧ ∀ i, elt arr'' i 0 = elt arr' i 0.
Proof.
  apply (normalize_columns_idempotent
           (Matrix 2 1 (λ i _, if i =? 0 then 3 else 4)%R) 0).
  - simpl. lia.
  - unfold norm, column, sum_prod. simpl.
    replace (0 + 3 * 3 + 4 * 4)%R with (5 * 5)%R by lra.
    rewrite sqrt_square by lra. lra.
Defined.

Lemma normalize_columns_scale_witness :
  ∃ arr1' arr2',
    normalize_columns (Matrix 2 1 (λ i _, if i =? 0 then 3 else 4)%R) = Ok arr1'
    ∧ normalize_columns (Matrix 2 1 (λ i _, if i =? 0 then 6 else 8)%R)
      = Ok arr2'
    ∧ ∀ i, i < 2 → elt arr2' i 0 = elt arr1' i 0.
Proof.
  apply (normalize_columns_scale
           (Matrix 2 1 (λ i _, if i =? 0 then 3 else 4)%R)
           (Matrix 2 1 (λ i _, if i =? 0 then 6 else 8)%R) 0 2).
  - reflexivity.
  - simpl. lia.
  - simpl. lia.
  - lra.
  - unfold norm, column, sum_prod. simpl.
    replace (0 + 3 * 3 + 4 * 4)%R with (5 * 5)%R by lra.
    rewrite sqrt_square by lra. lra.
  - intros i Hi. simpl. destruct (i =? 0); lra.
Defined.

Lemma read_options_last_wins_witness :
  ∃ st,
    read_options int_decimal
      [("-n", "7"); ("-m", "3"); ("-n", "2")]%string = Ok st
    ∧ input st = INPUT
    ∧ int_decimal "2" = Ok (numcmp st)
    ∧ int_decimal "3" = Ok (numres st).
Proof.
  apply (read_options_last_wins int_decimal
           [("-n", "7"); ("-m", "3"); ("-n", "2")]%string).
  repeat (constructor; [intros _; eexists; vm_compute; reflexivity|]).
  constructor.
Defined.

Lemma main_completes_witness :
  ∃ engine,
    engine3 3 5 = Ok engine
    ∧ ∃ results,
        search arccos_ref engine ["australia"%string] = Ok results
        ∧ length results = slice_len 5 (size corpus3)
        ∧ NoDup results
        ∧ (∀ id, id ∈ results → is_Some (corpus3 !! id))
        ∧ main int_decimal (load_corpus corpus3) arccos_ref svd_diag inv_diag
            [("-n", "3")]%string []
          = (["No search keywords were given.  Using defaults."
              +:+ newline +:+ newline;
              "Results for search on keyword: australia";
              tab +:+ String.concat (newline +:+ tab) results]%string,
             Completed).
Proof.
  eexists. split; [vm_compute; reflexivity|].
  apply (main_completes int_decimal (load_corpus corpus3) arccos_ref svd_diag
           inv_diag [("-n", "3")]%string []
           (Settings INPUT 3 5) corpus3).
  - exact svd_diag_shapes.
  - exact inv_diag_shapes.
  - vm_compute. reflexivity.
  - reflexivity.
  - vm_compute. reflexivity.
Defined.
